(** * forest_sorter: re-ordering a snapshot-structured halo catalogue

    A shallow embedding of [src/forest_sorter.py].  The HDF5 input file is
    an ordered association list of groups, a group an ordered association
    list of named arrays; Python dictionaries ([ID_maps],
    [snapshot_indices]) and the output file are finite maps.  Python
    exceptions are the [Raise] results of an error monad; the output file
    is threaded explicitly through the rewrite pass, so that what is on
    disk when an exception escapes can be observed. *)

From stdpp Require Import gmap strings list fin_maps sorting.
From Stdlib Require Import ZArith Ascii.

Open Scope Z_scope.

(** ** Exceptions and results *)

Inductive exn : Set :=
  | KeyError      (* missing dict key, HDF5 group or dataset name *)
  | IndexError    (* fancy index out of bounds *)
  | TypeError     (* np.lexsort on an empty key sequence; shape mismatch on write *)
  | ValueError    (* np.lexsort keys of different shapes *)
  | RangeError.   (* local index not below the multiplier *)

Inductive result (A : Type) : Type :=
  | Ok (a : A)
  | Raise (e : exn).
Arguments Ok {A} a.
Arguments Raise {A} e.

#[global] Instance result_ret : MRet result := fun _ a => Ok a.
#[global] Instance result_bind : MBind result := fun _ _ f m =>
  match m with
  | Ok a => f a
  | Raise e => Raise e
  end.

Definition of_option {A} (e : exn) (o : option A) : result A :=
  match o with
  | Some a => Ok a
  | None => Raise e
  end.

(** ** The HDF5 container

    Arrays hold integers.  The code only compares and moves the values of
    the real-valued fields (masses and the like); they are taken at whole
    values. *)

Abbreviation dataset := (list Z)%type (only parsing).
Abbreviation h5group := (list (string * dataset))%type (only parsing).
Abbreviation h5file := (list (string * h5group))%type (only parsing).

(** [obj[name]]: first entry under that name. *)
Fixpoint assoc {V} (name : string) (l : list (string * V)) : option V :=
  match l with
  | [] => None
  | (n, v) :: l' => if String.eqb n name then Some v else assoc name l'
  end.

(** [f[key][field]], raising [KeyError] at the first name that is absent. *)
Definition h5get (f : h5file) (key field : string) : result dataset :=
  g ← of_option KeyError (assoc key f);
  of_option KeyError (assoc field g).

(** ** Run-time options, as returned by [parse_inputs] *)

Record Args : Type := {
  sort_fields : list (option string);
  halo_id : string;
  ID_fields : list string;
  index_mult_factor : Z
}.

(** ** Strings: [key.upper()] and ["NONE" in ...]

    Field names are ASCII strings; [upper] maps the letters a-z to A-Z. *)

Definition upper_ascii (c : ascii) : ascii :=
  let n := nat_of_ascii c in
  if ((97 <=? n) && (n <=? 122))%nat then ascii_of_nat (n - 32) else c.

Fixpoint upper (s : string) : string :=
  match s with
  | EmptyString => EmptyString
  | String c s' => String (upper_ascii c) (upper s')
  end.

(** [pat in s] for Python strings: [pat] occurs as a contiguous substring. *)
Fixpoint contains (pat s : string) : bool :=
  String.prefix pat s ||
  match s with
  | EmptyString => false
  | String _ s' => contains pat s'
  end.

(** ** Temporal ID codec *)

(** Modelled from the spec: [genesis.utils.common.index_to_temporalID] is
    not part of the sources at hand.  Section 4.1 gives
    [encode(snapshot_number, local_index) = snapshot_number * M + local_index]. *)
Definition encode (M snapnum index : Z) : Z := snapnum * M + index.

(** Modelled from the spec: [genesis.utils.common.temporalID_to_snapnum] and
    the local-index half of the decoder are not part of the sources at
    hand.  Section 4.1: quotient and remainder by [M], truncating. *)
Definition decode (M id : Z) : Z * Z := (Z.quot id M, Z.rem id M).

(** Modelled from the spec: the array form of [index_to_temporalID] applied
    to [np.arange(n)]; "fails with RangeError if local_index >= M". *)
Definition index_to_temporalID (n : nat) (snapnum M : Z) : result (list Z) :=
  if forallb (fun k : nat => Z.of_nat k <? M) (seq 0 n)
  then Ok ((fun k : nat => encode M snapnum (Z.of_nat k)) <$> seq 0 n)
  else Raise RangeError.

(** Modelled from the spec: the array form of [temporalID_to_snapnum]. *)
Definition temporalID_to_snapnum (ids : list Z) (M : Z) : list Z :=
  (fun id => (decode M id).1) <$> ids.

(** ** np.lexsort *)

Definition key_at (key : list Z) (i : nat) : Z := nth i key 0.

(** Stable insertion of index [i] in front of the first index whose key is
    not smaller. *)
Fixpoint insert_by (key : list Z) (i : nat) (l : list nat) : list nat :=
  match l with
  | [] => [i]
  | j :: l' =>
      if key_at key i <=? key_at key j then i :: l
      else j :: insert_by key i l'
  end.

(** Stable indirect sort of the index list [idx] by [key]. *)
Fixpoint argsort_stable (key : list Z) (idx : list nat) : list nat :=
  match idx with
  | [] => []
  | i :: rest => insert_by key i (argsort_stable key rest)
  end.

Definition same_shape (n : nat) (keys : list (list Z)) : bool :=
  forallb (fun k => Nat.eqb (length k) n) keys.

(** [np.lexsort(keys)]: one stable indirect sort per key, first key first,
    so that the last key is the primary one. *)
Definition lexsort (keys : list (list Z)) : result (list nat) :=
  match keys with
  | [] => Raise TypeError
  | k0 :: _ =>
      if same_shape (length k0) keys
      then Ok (fold_left (fun idx key => argsort_stable key idx) keys
                         (seq 0 (length k0)))
      else Raise ValueError
  end.

(** ** get_sort_indices *)

(** The test of line 119: [key is None or "NONE" in key.upper()]. *)
Definition skip_key (key : option string) : bool :=
  match key with
  | None => true
  | Some k => contains "NONE" (upper k)
  end.

(** The loop of lines 117-121 over the (already reversed) key names. *)
Fixpoint gather_sort_keys (file_in : h5file) (snap_key : string)
    (keys : list (option string)) : result (list (list Z)) :=
  match keys with
  | [] => Ok []
  | key :: rest =>
      if skip_key key then gather_sort_keys file_in snap_key rest
      else
        match key with
        | Some k =>
            d ← h5get file_in snap_key k;
            ds ← gather_sort_keys file_in snap_key rest;
            Ok (d :: ds)
        | None => gather_sort_keys file_in snap_key rest
        end
  end.

Definition get_sort_indices (file_in : h5file) (snap_key : string)
    (args : Args) : result (list nat) :=
  sort_keys ← gather_sort_keys file_in snap_key (reverse (sort_fields args));
  lexsort sort_keys.

(** ** Pass 1: the tables from old IDs to new IDs *)

(** [arr[indices]] for an integer index array. *)
Fixpoint fancy_index (arr : list Z) (indices : list nat) : result (list Z) :=
  match indices with
  | [] => Ok []
  | i :: rest =>
      x ← of_option IndexError (arr !! i);
      xs ← fancy_index arr rest;
      Ok (x :: xs)
  end.

(** [dict(zip(ks, vs))]: pairs are inserted left to right, so a later pair
    replaces an earlier one under the same key. *)
Definition dict_zip (ks vs : list Z) : gmap Z Z :=
  fold_left (fun d kv => <[kv.1 := kv.2]> d) (zip ks vs) ∅.

(** [ID_maps] and [snapshot_indices]. *)
Abbreviation tables := (gmap Z (gmap Z Z) * gmap string (list nat))%type (only parsing).

(** Body of the loop of lines 162-190 for one snapshot key. *)
Definition pass1_step (args : Args) (f_in : h5file) (Snap_Nums : gmap string Z)
    (st : tables) (snap_key : string) : result tables :=
  ids ← h5get f_in snap_key (halo_id args);
  if Nat.eqb (length ids) 0 then Ok st
  else
    indices ← get_sort_indices f_in snap_key args;
    old_haloIDs ← h5get f_in snap_key (halo_id args);
    old_haloIDs_sorted ← fancy_index old_haloIDs indices;
    snapnum ← of_option KeyError (Snap_Nums !! snap_key);
    new_haloIDs ← index_to_temporalID (length indices) snapnum
                    (index_mult_factor args);
    let oldIDs_to_newIDs := dict_zip old_haloIDs_sorted new_haloIDs in
    Ok (<[snapnum := oldIDs_to_newIDs]> st.1, <[snap_key := indices]> st.2).

Fixpoint pass1_loop (args : Args) (f_in : h5file) (Snap_Nums : gmap string Z)
    (Snap_Keys : list string) (st : tables) : result tables :=
  match Snap_Keys with
  | [] => Ok st
  | snap_key :: rest =>
      st' ← pass1_step args f_in Snap_Nums st snap_key;
      pass1_loop args f_in Snap_Nums rest st'
  end.

(** Lines 155-199: the loop, then [ID_maps[0] = {-1:-1}]. *)
Definition pass1 (args : Args) (f_in : h5file) (Snap_Keys : list string)
    (Snap_Nums : gmap string Z) : result tables :=
  st ← pass1_loop args f_in Snap_Nums Snap_Keys (∅, ∅);
  Ok (<[0 := {[ -1 := -1 ]}]> st.1, st.2).

(** ** Pass 2: rewriting and re-ordering every field *)

(** The output file, written through by name. *)
Abbreviation h5out := (gmap string (gmap string (list Z)))%type (only parsing).

(** Modelled from the spec: [genesis.utils.common.copy_group] is not part of
    the sources at hand.  Section 6: the output gets "identical group/field
    layout and matching array lengths pre-allocated", groups being "copied
    byte-for-byte by the external copy routine". *)
Definition copy_group (f_in : h5file) (f_out : h5out) (key : string) : result h5out :=
  g ← of_option KeyError (assoc key f_in);
  Ok (<[key := list_to_map g]> f_out).

(** [ID_maps[snap][ID]]. *)
Definition lookup_newID (ID_maps : gmap Z (gmap Z Z)) (snap ID : Z) : result Z :=
  table ← of_option KeyError (ID_maps !! snap);
  of_option KeyError (table !! ID).

(** The list comprehension of lines 244-245. *)
Fixpoint lookup_newIDs (ID_maps : gmap Z (gmap Z Z)) (pairs : list (Z * Z))
    : result (list Z) :=
  match pairs with
  | [] => Ok []
  | (snap, ID) :: rest =>
      x ← lookup_newID ID_maps snap ID;
      xs ← lookup_newIDs ID_maps rest;
      Ok (x :: xs)
  end.

(** Lines 238-248: what is to be written for one field, before re-ordering. *)
Definition to_write (args : Args) (f_in : h5file) (ID_maps : gmap Z (gmap Z Z))
    (key field : string) : result (list Z) :=
  if bool_decide (field ∈ ID_fields args) then
    oldID ← h5get f_in key field;
    let snapnum := temporalID_to_snapnum oldID (index_mult_factor args) in
    lookup_newIDs ID_maps (zip snapnum oldID)
  else h5get f_in key field.

(** Lines 231-252 up to the assignment: [None] when the iteration ends in
    [continue], otherwise the array assigned to [f_out[key][field][:]]. *)
Definition sorted_field (args : Args) (f_in : h5file) (tb : tables)
    (key field : string) : result (option (list Z)) :=
  match h5get f_in key (halo_id args) with
  | Raise _ => Ok None
  | Ok ids =>
      if Nat.eqb (length ids) 0 then Ok None
      else
        tw ← to_write args f_in tb.1 key field;
        indices ← of_option KeyError (tb.2 !! key);
        out ← fancy_index tw indices;
        Ok (Some out)
  end.

(** Assignment to a whole dataset: equal shapes, or a single value broadcast
    over the dataset. *)
Definition broadcast (n : nat) (arr : list Z) : result (list Z) :=
  if Nat.eqb (length arr) n then Ok arr
  else match arr with
       | [x] => Ok (replicate n x)
       | _ => Raise TypeError
       end.

(** [f_out[key][field][:] = arr]. *)
Definition h5write (f_out : h5out) (key field : string) (arr : list Z)
    : result h5out :=
  g ← of_option KeyError (f_out !! key);
  old ← of_option KeyError (g !! field);
  new ← broadcast (length old) arr;
  Ok (<[key := <[field := new]> g]> f_out).

(** One iteration of the loop over the fields of a group.  The first
    component is the output file as it stands when the iteration ends,
    normally or by an exception. *)
Definition write_field (args : Args) (f_in : h5file) (tb : tables)
    (key field : string) (f_out : h5out) : h5out * result unit :=
  match sorted_field args f_in tb key field with
  | Raise e => (f_out, Raise e)
  | Ok None => (f_out, Ok tt)
  | Ok (Some arr) =>
      match h5write f_out key field arr with
      | Ok f_out' => (f_out', Ok tt)
      | Raise e => (f_out, Raise e)
      end
  end.

Fixpoint write_fields (args : Args) (f_in : h5file) (tb : tables)
    (key : string) (fields : list string) (f_out : h5out) : h5out * result unit :=
  match fields with
  | [] => (f_out, Ok tt)
  | field :: rest =>
      match write_field args f_in tb key field f_out with
      | (f_out', Ok _) => write_fields args f_in tb key rest f_out'
      | (f_out', Raise e) => (f_out', Raise e)
      end
  end.

(** Body of the loop of lines 217-252 for one group. *)
Definition write_group (args : Args) (f_in : h5file) (tb : tables)
    (key : string) (f_out : h5out) : h5out * result unit :=
  match copy_group f_in f_out key with
  | Raise e => (f_out, Raise e)
  | Ok f_out' =>
      match assoc key f_in with
      | None => (f_out', Raise KeyError)
      | Some g => write_fields args f_in tb key g.*1 f_out'
      end
  end.

Fixpoint pass2 (args : Args) (f_in : h5file) (tb : tables)
    (keys : list string) (f_out : h5out) : h5out * result unit :=
  match keys with
  | [] => (f_out, Ok tt)
  | key :: rest =>
      match write_group args f_in tb key f_out with
      | (f_out', Ok _) => pass2 args f_in tb rest f_out'
      | (f_out', Raise e) => (f_out', Raise e)
      end
  end.

(** ** sort_and_write_file *)

Section Run.

(** [genesis.utils.common.get_snapkeys_and_nums] is not part of the
    sources at hand: from the names of the groups it gives the snapshot
    keys in processing order and the snapshot number of each. *)
Variable get_snapkeys_and_nums : list string -> list string * gmap string Z.

(** The output file is opened with mode "w", hence empty at first. *)
Definition sort_and_write_file (args : Args) (f_in : h5file)
    : h5out * result unit :=
  let '(Snap_Keys, Snap_Nums) := get_snapkeys_and_nums f_in.*1 in
  match pass1 args f_in Snap_Keys Snap_Nums with
  | Raise e => (∅, Raise e)
  | Ok tb => pass2 args f_in tb f_in.*1 ∅
  end.

End Run.

(** ** Notions used in the statements *)

(** What [gather_sort_keys] collects: the arrays named by the keys that
    are not skipped, in loop order. *)
Fixpoint lookup_fields (file_in : h5file) (snap_key : string)
    (names : list string) : result (list (list Z)) :=
  match names with
  | [] => Ok []
  | k :: rest =>
      d ← h5get file_in snap_key k;
      ds ← lookup_fields file_in snap_key rest;
      Ok (d :: ds)
  end.

Definition active_keys (keys : list (option string)) : list string :=
  omap (fun key => if skip_key key then None else key) keys.

(** Every array of the group has [n] entries. *)
Definition record_count (g : h5group) (n : nat) : Prop :=
  Forall (fun nd => length nd.2 = n) g.

(** The table that the first loop stores for a snapshot: old IDs in sorted
    order against the new IDs [encode s 0], [encode s 1], ... *)
Definition snapshot_table (M s : Z) (ids : list Z) (indices : list nat)
    : gmap Z Z :=
  dict_zip ((fun i => nth i ids 0) <$> indices)
           ((fun k : nat => encode M s (Z.of_nat k)) <$> seq 0 (length indices)).

(** Every new ID stored for snapshot number [s] is [encode s k] for a
    local index [k] below the multiplier. *)
Definition new_IDs_in_range (M : Z) (ID_maps : gmap Z (gmap Z Z)) : Prop :=
  forall s (table : gmap Z Z) v w,
    ID_maps !! s = Some table -> table !! v = Some w ->
    exists k : nat, Z.of_nat k < M /\ w = encode M s (Z.of_nat k).

(** The dataset [key/field] of the output exists and has [n] entries. *)
Definition allocated (o : h5out) (key field : string) (n : nat) : Prop :=
  exists g cur, o !! key = Some g /\ g !! field = Some cur /\ length cur = n.

(** The dataset [key/field] of the output, of [n] entries, holds [arr]. *)
Definition written (o : h5out) (key field : string) (n : nat) (arr : list Z)
    : Prop :=
  exists g new, o !! key = Some g /\ g !! field = Some new
                /\ broadcast n arr = Ok new.

(** ** Concrete inputs *)

(** A snapshot-number resolution given by a table: the snapshot keys are the
    group names found in the table, in file order. *)
Definition snaps_of_table (tbl : list (string * Z)) (names : list string)
    : list string * gmap string Z :=
  (filter (fun n => is_Some (assoc n tbl)) names, list_to_map tbl).

Definition numbers_from_0 : list (string * Z) :=
  [("Snap_000"%string, 0); ("Snap_001"%string, 1)].

Definition numbers_from_1 : list (string * Z) :=
  [("Snap_001"%string, 1); ("Snap_002"%string, 2)].

(** The docstring example of [get_sort_indices]; the masses 4e9, 10e10, 8e8,
    7e9, 3e11 and 5e6 are whole numbers. *)
Definition example_file : h5file :=
  [("Snap_000"%string,
    [("ForestID"%string, [1; 4; 39; 1; 1; 4]);
     ("Mass"%string,
      [4000000000; 100000000000; 800000000; 7000000000; 300000000000; 5000000])])].

Definition example_args : Args :=
  {| sort_fields := [Some "ForestID"%string; Some "Mass"%string];
     halo_id := "ID"; ID_fields := []; index_mult_factor := 1000000000000 |}.

(** A snapshot whose second sort key is named "Mass_none". *)
Definition mass_none_file : h5file :=
  [("Snap_000"%string,
    [("ForestID"%string, [1; 1; 1]); ("Mass_none"%string, [30; 20; 10])])].

Definition mass_none_args : Args :=
  {| sort_fields := [Some "ForestID"%string; Some "Mass_none"%string];
     halo_id := "ID"; ID_fields := []; index_mult_factor := 10 |}.

(** Options with one sort key, for a multiplier of 10: all links and the ID
    are identifier fields; only the ID is; only the Tail links are. *)
Definition small_args : Args :=
  {| sort_fields := [Some "ForestID"%string];
     halo_id := "ID";
     ID_fields := ["Head"; "Tail"; "ID"]%string;
     index_mult_factor := 10 |}.

Definition id_args : Args :=
  {| sort_fields := [Some "ForestID"%string];
     halo_id := "ID";
     ID_fields := ["ID"]%string;
     index_mult_factor := 10 |}.

Definition tail_args : Args :=
  {| sort_fields := [Some "ForestID"%string];
     halo_id := "ID";
     ID_fields := ["Tail"]%string;
     index_mult_factor := 10 |}.

(** Options with two sort keys. *)
Definition linked_args : Args :=
  {| sort_fields := [Some "ForestID"%string; Some "Mass"%string];
     halo_id := "ID";
     ID_fields := ["Head"; "Tail"; "ID"]%string;
     index_mult_factor := 10 |}.

(** Snapshot 0 holds two halos, stored in the order opposite to their
    forests; the only halo of snapshot 1 descends from the second one. *)
Definition two_snapshots : h5file :=
  [("Snap_000"%string,
    [("ForestID"%string, [2; 1]); ("Head"%string, [-1; 10]);
     ("ID"%string, [0; 1])]);
   ("Snap_001"%string,
    [("ForestID"%string, [1]); ("Head"%string, [-1]);
     ("ID"%string, [10]); ("Tail"%string, [1])])].

(** A file with the single snapshot 0, holding two halos. *)
Definition snapshot_zero_file : h5file :=
  [("Snap_000"%string,
    [("ForestID"%string, [2; 1]); ("ID"%string, [0; 1])])].

(** A snapshot in which two halos carry the same ID. *)
Definition dup_file : h5file :=
  [("Snap_001"%string,
    [("ForestID"%string, [2; 1]); ("ID"%string, [11; 11]);
     ("Mass"%string, [5; 6])])].

(** A file whose last snapshot holds a reference (37) to a snapshot that
    does not exist. *)
Definition dangling_file : h5file :=
  [("Header"%string, [("BoxSize"%string, [500])]);
   ("Snap_001"%string,
    [("ForestID"%string, [2; 1]); ("Head"%string, [21; 22]);
     ("ID"%string, [11; 12]); ("Mass"%string, [5; 6])]);
   ("Snap_002"%string,
    [("ForestID"%string, [4; 3]); ("Head"%string, [-1; 37]);
     ("ID"%string, [21; 22]); ("Mass"%string, [8; 9])])].

Definition dangling_args : Args :=
  {| sort_fields := [Some "ForestID"%string; Some "Mass"%string];
     halo_id := "ID";
     ID_fields := ["Head"; "ID"]%string;
     index_mult_factor := 10 |}.

(** Two linked snapshots, numbered 1 and 2, and a group without halos. *)
Definition linked_file : h5file :=
  [("Header"%string, [("BoxSize"%string, [500])]);
   ("Snap_001"%string,
    [("ForestID"%string, [2; 1]); ("Head"%string, [20; 21]);
     ("ID"%string, [10; 11]); ("Mass"%string, [5; 6]);
     ("Tail"%string, [-1; -1])]);
   ("Snap_002"%string,
    [("ForestID"%string, [2; 1; 1]); ("Head"%string, [-1; -1; -1]);
     ("ID"%string, [20; 21; 22]); ("Mass"%string, [8; 9; 3]);
     ("Tail"%string, [10; 11; -1])])].

(** Record [i] goes before record [j]: at the first of the keys on which
    they differ [i] has the smaller value, and when they agree on all of
    them [i] is the earlier one in the input. *)
Fixpoint precedes (keys : list (list Z)) (i j : nat) : Prop :=
  match keys with
  | [] => (i <= j)%nat
  | key :: rest =>
      key_at key i < key_at key j
      \/ (key_at key i = key_at key j /\ precedes rest i j)
  end.

(** What pass 1 needs of a snapshot with halos. *)
Definition sortable_snapshot (args : Args) (SN : gmap string Z)
    (snap : string) (g : h5group) (ids : list Z) : Prop :=
  record_count g (length ids)
  /\ is_Some (SN !! snap)
  /\ Z.of_nat (length ids) <= index_mult_factor args
  /\ active_keys (sort_fields args) <> []
  /\ forall k, k ∈ active_keys (sort_fields args) -> is_Some (assoc k g).

(** What the whole run needs of a group with halos: it is a snapshot key
    with a number of its own, other than 0; pass 1 can sort it; and every
    entry of its identifier fields is -1 or the halo ID of a record of the
    snapshot whose number it decodes to. *)
Definition well_formed_snapshot (args : Args) (f : h5file)
    (keys : list string) (SN : gmap string Z)
    (key : string) (g : h5group) (ids : list Z) : Prop :=
  key ∈ keys
  /\ (exists s, SN !! key = Some s /\ s <> 0 /\
                forall key', key' ∈ keys -> SN !! key' = Some s -> key' = key)
  /\ sortable_snapshot args SN key g ids
  /\ forall field oldID v,
       assoc field g = Some oldID -> field ∈ ID_fields args -> v ∈ oldID ->
       v = -1 \/
       exists key' g' ids',
         assoc key' f = Some g' /\ assoc (halo_id args) g' = Some ids' /\
         v ∈ ids' /\
         SN !! key' = Some (decode (index_mult_factor args) v).1.


(** ** parse_inputs *)

(** [s.split(',')] for a separator of one character: the pieces of [s]
    between the separators, empty pieces included. *)
Fixpoint split_at (sep : ascii) (s : string) : list string :=
  match s with
  | EmptyString => [EmptyString]
  | String c s' =>
      if Ascii.eqb c sep then EmptyString :: split_at sep s'
      else
        match split_at sep s' with
        | piece :: pieces => String c piece :: pieces
        | [] => [String c EmptyString]
        end
  end.

(** [sep.join(pieces)]. *)
Fixpoint join (sep : string) (pieces : list string) : string :=
  match pieces with
  | [] => EmptyString
  | [piece] => piece
  | piece :: rest => piece +:+ sep +:+ join sep rest
  end.

(** No character of the string is the separator. *)
Fixpoint free_of (sep : ascii) (s : string) : Prop :=
  match s with
  | EmptyString => True
  | String c s' => c <> sep /\ free_of sep s'
  end.

Module ParseInputs.

(** What the command line gives for each option, if anything; argparse
    stores the text as it is, none of the options having a [type]. *)
Record command_line : Type := {
  given_fname_in : option string;
  given_fname_out : option string;
  given_sort_fields : option string;
  given_halo_id : option string;
  given_ID_fields : option string;
  given_index_mult_factor : option string
}.

(** The multiplier is the float 1e12 unless a text was given for it. *)
Inductive factor : Type :=
  | Default_1e12
  | Given (text : string).

(** The dictionary that [parse_inputs] returns. *)
Record parsed : Type := {
  fname_in : string;
  fname_out : string;
  sort_fields : list string;
  halo_id : string;
  ID_fields : list string;
  index_mult_factor : factor
}.

(** Lines 32-77, the messages printed apart; [None] stands for the
    RuntimeError of line 62. *)
Definition parse_inputs (cl : command_line) : option parsed :=
  match given_fname_in cl, given_fname_out cl with
  | Some f_in, Some f_out =>
      Some {| fname_in := f_in;
              fname_out := f_out;
              sort_fields :=
                split_at "," (default "ForestID,hostHaloID,Mass_200mean"%string
                                      (given_sort_fields cl));
              halo_id := default "ID"%string (given_halo_id cl);
              ID_fields :=
                split_at "," (default "Head,Tail,RootHead,RootTail,ID,hostHaloID"%string
                                      (given_ID_fields cl));
              index_mult_factor :=
                match given_index_mult_factor cl with
                | Some text => Given text
                | None => Default_1e12
                end |}
  | _, _ => None
  end.

End ParseInputs.

(** The options as [sort_and_write_file] reads them, for a multiplier [M]
    that [genesis.utils.common] makes of [index_mult_factor]. *)
Definition to_Args (p : ParseInputs.parsed) (M : Z) : Args :=
  {| sort_fields := Some <$> ParseInputs.sort_fields p;
     halo_id := ParseInputs.halo_id p;
     ID_fields := ParseInputs.ID_fields p;
     index_mult_factor := M |}.


(** A single halo in snapshot 1 that has no descendant: its Head is the
    sentinel. *)
Definition lone_halo_file : h5file :=
  [("Snap_001"%string,
    [("ForestID"%string, [1]); ("Head"%string, [-1]); ("ID"%string, [1])])].

(** Options with multiplier 1, which leaves room for one halo per
    snapshot. *)
Definition multiplier_one_args : Args :=
  {| sort_fields := [Some "ForestID"%string];
     halo_id := "ID";
     ID_fields := ["Head"]%string;
     index_mult_factor := 1 |}.

(** A snapshot that is already in the order of its forests and masses,
    with the halo IDs of its positions. *)
Definition ordered_file : h5file :=
  [("Snap_001"%string,
    [("ForestID"%string, [1; 1; 2]); ("Head"%string, [-1; 10; 11]);
     ("ID"%string, [10; 11; 12]); ("Mass"%string, [3; 5; 1])])].

(** * Properties *)

(** ** The codec *)

(** C2: for every snapshot number s >= 0 and local index 0 <= i < M,
    decoding the encoded identifier s * M + i by truncating quotient and
    remainder gives back the pair (s, i). *)
Theorem decode_encode (M s i : Z) :
  0 <= s -> 0 <= i < M -> decode M (encode M s i) = (s, i).
Proof.
  intros Hs Hi. unfold decode, encode.
  assert (HM : 0 < M) by lia.
  assert (Hnn : 0 <= s * M + i) by nia.
  rewrite Z.quot_div_nonneg, Z.rem_mod_nonneg by lia.
  f_equal; symmetry.
  - apply Z.div_unique with (r := i); lia.
  - apply Z.mod_unique with (q := s); lia.
Qed.

Lemma decode_encode_witness : decode 10 (encode 10 3 7) = (3, 7).
Proof. apply decode_encode; lia. Defined.

(** ** The sort-key resolver *)

(** C6: on the docstring example, ForestID = [1, 4, 39, 1, 1, 4] as primary
    key and Mass = [4e9, 1e11, 8e8, 7e9, 3e11, 5e6] as secondary key,
    get_sort_indices returns [0, 3, 4, 5, 1, 2]. *)
Theorem get_sort_indices_docstring_example :
  get_sort_indices example_file "Snap_000" example_args
  = Ok [0; 3; 4; 5; 1; 2]%nat.
Proof. vm_compute. reflexivity. Qed.

Lemma append_cons (c : ascii) (s t : string) :
  String c s +:+ t = String c (s +:+ t).
Proof. reflexivity. Qed.

Lemma prefix_spec (pat s : string) :
  String.prefix pat s = true <-> exists post, s = pat +:+ post.
Proof.
  revert s. induction pat as [|c pat IH]; intros s; simpl.
  - split; [intros _; by exists s | by destruct s].
  - destruct s as [|d s]; simpl.
    + split; [done | intros [post H]; discriminate].
    + setoid_rewrite append_cons.
      destruct (Ascii.ascii_dec c d) as [->|Hne].
      * rewrite IH. split; intros [post H]; exists post; congruence.
      * split; [done | intros [post H]; congruence].
Qed.

Lemma contains_spec (pat s : string) :
  contains pat s = true <-> exists pre post, s = pre +:+ pat +:+ post.
Proof.
  induction s as [|c s IH]; cbn [contains].
  - rewrite orb_false_r, prefix_spec. split.
    + intros [post H]. by exists ""%string, post.
    + intros [pre [post H]]. destruct pre; [by exists post | discriminate].
  - rewrite orb_true_iff, prefix_spec, IH. split.
    + intros [[post H] | [pre [post H]]].
      * by exists ""%string, post.
      * exists (String c pre), post. by rewrite append_cons, H.
    + intros [pre [post H]]. destruct pre as [|d pre].
      * left. by exists post.
      * right. exists pre, post. rewrite append_cons in H. congruence.
Qed.

Lemma gather_sort_keys_active file_in snap_key keys :
  gather_sort_keys file_in snap_key keys
  = lookup_fields file_in snap_key (active_keys keys).
Proof.
  induction keys as [|[k|] keys IH]; simpl; [done | | done].
  unfold active_keys in *. simpl.
  destruct (contains "NONE" (upper k)); simpl; [done |].
  by rewrite IH.
Qed.

(** C7 (as the code has it): a sort-key entry is skipped exactly when it is
    absent or its upper-cased name contains "NONE" as a substring; the
    arrays handed to the sort are those of the remaining entries. *)
Theorem skip_key_iff_contains_NONE file_in snap_key args (key : option string) :
  (skip_key key = true <->
     key = None \/
     exists k pre post, key = Some k /\ upper k = pre +:+ "NONE" +:+ post)
  /\ get_sort_indices file_in snap_key args
     = (sort_keys ← lookup_fields file_in snap_key
                      (active_keys (reverse (sort_fields args)));
        lexsort sort_keys).
Proof.
  split.
  - destruct key as [k|]; simpl.
    + rewrite contains_spec. split.
      * intros (pre & post & H). right. by exists k, pre, post.
      * intros [H | (k' & pre & post & [= <-] & H)]; [done | by exists pre, post].
    + split; [by left | done].
  - unfold get_sort_indices. by rewrite gather_sort_keys_active.
Qed.

(** C7, refuted as stated: "Mass_none" is not "none" in any letter case,
    yet it is skipped, and the order it would impose is not applied. *)
Lemma skip_key_not_only_none :
  ~ (forall key : option string,
       skip_key key = true <->
       key = None \/ exists k, key = Some k /\ upper k = "NONE"%string)
  /\ get_sort_indices mass_none_file "Snap_000" mass_none_args
     = Ok [0; 1; 2]%nat.
Proof.
  split; [| vm_compute; reflexivity].
  intros H. specialize (H (Some "Mass_none"%string)).
  destruct H as [H _]. specialize (H eq_refl).
  destruct H as [H | (k & [= <-] & H)]; discriminate.
Qed.

Lemma insert_by_perm key i l : insert_by key i l ≡ₚ i :: l.
Proof.
  induction l as [|j l IH]; simpl; [done |].
  destruct (key_at key i <=? key_at key j); [done |].
  rewrite IH. apply perm_swap.
Qed.

Lemma argsort_stable_perm key idx : argsort_stable key idx ≡ₚ idx.
Proof.
  induction idx as [|i idx IH]; simpl; [done |].
  by rewrite insert_by_perm, IH.
Qed.

Lemma lexsort_passes_perm keys idx :
  fold_left (fun idx key => argsort_stable key idx) keys idx ≡ₚ idx.
Proof.
  revert idx. induction keys as [|k keys IH]; intros idx; simpl; [done |].
  by rewrite IH, argsort_stable_perm.
Qed.

Lemma lexsort_perm keys idx :
  lexsort keys = Ok idx ->
  exists k0 rest, keys = k0 :: rest /\ idx ≡ₚ seq 0 (length k0).
Proof.
  unfold lexsort. destruct keys as [|k0 rest]; [done |].
  destruct (same_shape _ _); [| done].
  intros [= <-]. exists k0, rest. split; [done |].
  exact (lexsort_passes_perm (k0 :: rest) _).
Qed.

Lemma lexsort_returns k0 rest :
  Forall (fun k => length k = length k0) rest ->
  exists idx, lexsort (k0 :: rest) = Ok idx.
Proof.
  intros Hlen. unfold lexsort.
  assert (same_shape (length k0) (k0 :: rest) = true) as ->; [| by eexists].
  unfold same_shape. apply forallb_forall. intros k [<- | Hk].
  - apply Nat.eqb_refl.
  - apply Nat.eqb_eq. rewrite Forall_forall in Hlen.
    apply Hlen. by apply list_elem_of_In.
Qed.

Lemma assoc_elem_of {V} name (l : list (string * V)) v :
  assoc name l = Some v -> (name, v) ∈ l.
Proof.
  induction l as [|[n w] l IH]; simpl; [done |].
  destruct (String.eqb_spec n name) as [-> | Hne].
  - intros [= ->]. left.
  - intros H. right. by apply IH.
Qed.

Lemma h5get_inv f key field d :
  h5get f key field = Ok d ->
  exists g, assoc key f = Some g /\ assoc field g = Some d.
Proof.
  unfold h5get. destruct (assoc key f) as [g|]; simpl; [| done].
  destruct (assoc field g) as [d'|] eqn:E; simpl; [| done].
  intros [= <-]. by exists g.
Qed.

Lemma h5get_intro f key field g d :
  assoc key f = Some g -> assoc field g = Some d -> h5get f key field = Ok d.
Proof. intros H1 H2. unfold h5get. rewrite H1. simpl. by rewrite H2. Qed.

Lemma h5get_length f key field g d n :
  assoc key f = Some g -> record_count g n ->
  h5get f key field = Ok d -> length d = n.
Proof.
  intros Hg Hn Hd. apply h5get_inv in Hd as (g' & Hg' & Hd).
  assert (g' = g) as -> by congruence.
  apply assoc_elem_of in Hd. unfold record_count in Hn.
  rewrite Forall_forall in Hn. apply (Hn _ Hd).
Qed.

Lemma lookup_fields_length f snap g n names ds :
  assoc snap f = Some g -> record_count g n ->
  lookup_fields f snap names = Ok ds ->
  Forall (fun d => length d = n) ds.
Proof.
  intros Hg Hn. revert ds. induction names as [|k names IH]; intros ds; simpl.
  - by intros [= <-].
  - destruct (h5get f snap k) as [d|] eqn:Hd; simpl; [| done].
    destruct (lookup_fields f snap names) as [ds'|]; simpl; [| done].
    intros [= <-]. constructor; [| by apply IH].
    by eapply h5get_length.
Qed.

Lemma lookup_fields_returns f snap g names :
  assoc snap f = Some g ->
  (forall k, k ∈ names -> is_Some (assoc k g)) ->
  exists ds, lookup_fields f snap names = Ok ds /\ length ds = length names.
Proof.
  intros Hg. induction names as [|k names IH]; intros Hall; simpl.
  - by exists [].
  - destruct (Hall k) as [d Hd]; [left |].
    rewrite (h5get_intro _ _ _ _ _ Hg Hd). simpl.
    destruct IH as (ds & -> & Hlen); [intros k' Hk'; apply Hall; by right |].
    simpl. exists (d :: ds). split; [done |]. simpl. by rewrite Hlen.
Qed.

Lemma active_keys_reverse keys :
  active_keys (reverse keys) = reverse (active_keys keys).
Proof.
  unfold active_keys. induction keys as [|key keys IH]; simpl; [done |].
  rewrite reverse_cons, omap_app, IH. simpl.
  destruct (if skip_key key then None else key); simpl.
  - by rewrite reverse_cons.
  - by rewrite app_nil_r.
Qed.

Lemma get_sort_indices_perm f snap args g count idx :
  assoc snap f = Some g ->
  record_count g count ->
  get_sort_indices f snap args = Ok idx ->
  idx ≡ₚ seq 0 count.
Proof.
  intros Hg Hn. unfold get_sort_indices.
  rewrite gather_sort_keys_active.
  destruct (lookup_fields f snap _) as [ds|] eqn:Hds; simpl; [| done].
  intros Hidx. apply lexsort_perm in Hidx as (k0 & rest & -> & Hperm).
  eapply lookup_fields_length in Hds; [| done..].
  apply Forall_cons in Hds as [Hk0 _]. by rewrite Hk0 in Hperm.
Qed.

(** C8: in a snapshot all of whose arrays have count entries, whatever
    get_sort_indices returns has length count, has no repeated index and
    contains exactly the indices below count; and it does return as soon as
    one sort key is not skipped and every such key names an array of the
    snapshot. *)
Theorem get_sort_indices_permutation f snap args g count :
  assoc snap f = Some g ->
  record_count g count ->
  (forall idx, get_sort_indices f snap args = Ok idx ->
     length idx = count /\ NoDup idx /\
     forall i : nat, i ∈ idx <-> (i < count)%nat)
  /\ (active_keys (sort_fields args) <> [] ->
      (forall k, k ∈ active_keys (sort_fields args) -> is_Some (assoc k g)) ->
      exists idx, get_sort_indices f snap args = Ok idx).
Proof.
  intros Hg Hn. split.
  - intros idx Hidx.
    pose proof (get_sort_indices_perm _ _ _ _ _ _ Hg Hn Hidx) as Hperm.
    split; [by rewrite Hperm, length_seq |].
    split; [rewrite Hperm; apply NoDup_seq |].
    intros i. rewrite Hperm, elem_of_seq. lia.
  - unfold get_sort_indices.
    rewrite gather_sort_keys_active, active_keys_reverse.
    intros Hne Hall.
    destruct (lookup_fields_returns f snap g (reverse (active_keys (sort_fields args))) Hg)
      as (ds & Hds & Hlen).
    { intros k Hk. apply Hall. by apply elem_of_reverse. }
    rewrite Hds. simpl.
    destruct ds as [|k0 rest].
    { rewrite length_reverse in Hlen. destruct (active_keys _); done. }
    apply lexsort_returns.
    eapply lookup_fields_length in Hds; [| done..].
    apply Forall_cons in Hds as [Hk0 Hrest].
    eapply Forall_impl; [exact Hrest |]. simpl. intros k ->. done.
Qed.

Lemma get_sort_indices_permutation_witness :
  (forall idx,
     get_sort_indices example_file "Snap_000" example_args = Ok idx ->
     length idx = 6%nat /\ NoDup idx /\
     forall i : nat, i ∈ idx <-> (i < 6)%nat)
  /\ (active_keys (sort_fields example_args) <> [] ->
      (forall k, k ∈ active_keys (sort_fields example_args) ->
         is_Some (assoc k [("ForestID"%string, [1; 4; 39; 1; 1; 4]);
                           ("Mass"%string,
                            [4000000000; 100000000000; 800000000;
                             7000000000; 300000000000; 5000000])])) ->
      exists idx,
        get_sort_indices example_file "Snap_000" example_args = Ok idx).
Proof.
  apply get_sort_indices_permutation.
  - reflexivity.
  - repeat constructor.
Defined.

(** ** Pass 1 *)

Lemma dict_zip_snoc ks vs k v :
  length ks = length vs ->
  dict_zip (ks ++ [k]) (vs ++ [v]) = <[k := v]> (dict_zip ks vs).
Proof.
  intros Hlen. unfold dict_zip.
  rewrite zip_with_app by done. simpl.
  by rewrite fold_left_app.
Qed.

Lemma dict_zip_dom ks vs :
  length ks = length vs -> dom (dict_zip ks vs) = list_to_set ks.
Proof.
  revert vs. induction ks as [|k ks IH] using rev_ind; intros vs Hlen.
  - unfold dict_zip. simpl. by rewrite dom_empty_L.
  - destruct vs as [|v vs _] using rev_ind.
    { rewrite length_app in Hlen. simpl in Hlen. lia. }
    rewrite !length_app in Hlen. simpl in Hlen.
    rewrite dict_zip_snoc by lia.
    rewrite dom_insert_L, IH by lia.
    rewrite list_to_set_app_L. simpl. set_solver.
Qed.

(** With pairwise distinct keys the table holds every pair. *)
Lemma dict_zip_lookup ks vs i k v :
  length ks = length vs -> NoDup ks ->
  ks !! i = Some k -> vs !! i = Some v ->
  dict_zip ks vs !! k = Some v.
Proof.
  revert vs i. induction ks as [|k0 ks IH] using rev_ind; intros vs i Hlen Hnd Hk Hv.
  - done.
  - destruct vs as [|v0 vs _] using rev_ind.
    { rewrite length_app in Hlen. simpl in Hlen. lia. }
    rewrite !length_app in Hlen. simpl in Hlen.
    rewrite dict_zip_snoc by lia.
    apply NoDup_app in Hnd as (Hnd & Hnotin & _).
    destruct (decide (i < length ks)%nat) as [Hlt | Hge].
    + rewrite lookup_app_l in Hk by done.
      rewrite lookup_app_l in Hv by lia.
      rewrite lookup_insert_ne.
      * eapply IH; [lia | done..].
      * intros ->. apply (Hnotin k); [by eapply list_elem_of_lookup_2 | left].
    + assert (i = length ks) as ->.
      { apply lookup_lt_Some in Hk. rewrite length_app in Hk. simpl in Hk. lia. }
      rewrite list_lookup_middle in Hk by done.
      rewrite list_lookup_middle in Hv by lia.
      injection Hk as ->. injection Hv as ->.
      apply lookup_insert_eq.
Qed.

Lemma list_to_set_size_le (l : list Z) :
  (size (list_to_set l : gset Z) <= length l)%nat.
Proof.
  induction l as [|x l IH].
  { rewrite list_to_set_nil, size_empty. done. }
  rewrite list_to_set_cons. simpl.
  rewrite size_union_alt.
  rewrite size_singleton.
  assert (size (list_to_set l ∖ {[x]} : gset Z) <= size (list_to_set l : gset Z))%nat.
  { apply subseteq_size. set_solver. }
  lia.
Qed.

Lemma list_to_set_size_dup (l : list Z) :
  ~ NoDup l -> (size (list_to_set l : gset Z) < length l)%nat.
Proof.
  induction l as [|x l IH]; intros Hdup.
  - destruct Hdup. constructor.
  - rewrite list_to_set_cons. simpl. destruct (decide (x ∈ l)) as [Hin | Hnotin].
    + assert ({[x]} ∪ list_to_set l = (list_to_set l : gset Z)) as -> by set_solver.
      pose proof (list_to_set_size_le l). lia.
    + assert (~ NoDup l) as Hl.
      { intros Hnd. apply Hdup. by constructor. }
      specialize (IH Hl).
      rewrite size_union by set_solver. rewrite size_singleton. lia.
Qed.

Lemma fancy_index_Forall2 arr idx out :
  fancy_index arr idx = Ok out <-> Forall2 (fun i x => arr !! i = Some x) idx out.
Proof.
  revert out. induction idx as [|i idx IH]; intros out; simpl.
  - split; [intros [= <-]; constructor | by intros ->%Forall2_nil_inv_l].
  - destruct (arr !! i) as [x|] eqn:Hx; simpl.
    + destruct (fancy_index arr idx) as [xs|]; simpl.
      * split.
        -- intros [= <-]. constructor; [done | by apply IH].
        -- intros (y & ys & Hy & Hys & ->)%Forall2_cons_inv_l.
           apply IH in Hys. congruence.
      * split; [done |].
        intros (y & ys & Hy & Hys & ->)%Forall2_cons_inv_l.
        by apply IH in Hys.
    + split; [done |].
      intros (y & ys & Hy & Hys & ->)%Forall2_cons_inv_l. congruence.
Qed.

Lemma fancy_index_length arr idx out :
  fancy_index arr idx = Ok out -> length out = length idx.
Proof. intros H%fancy_index_Forall2. symmetry. by eapply Forall2_length. Qed.

Lemma fancy_index_lookup arr idx out k i :
  fancy_index arr idx = Ok out -> idx !! k = Some i ->
  exists x, out !! k = Some x /\ arr !! i = Some x.
Proof.
  intros H%fancy_index_Forall2 Hk.
  destruct (Forall2_lookup_l _ _ _ _ _ H Hk) as (x & Hx & Hi). by exists x.
Qed.

Lemma fancy_index_returns arr idx :
  Forall (fun i => (i < length arr)%nat) idx ->
  exists out, fancy_index arr idx = Ok out.
Proof.
  induction 1 as [|i idx Hi _ [out IH]]; simpl; [by eexists |].
  destruct (lookup_lt_is_Some_2 arr i Hi) as [x ->]. simpl.
  rewrite IH. simpl. by eexists.
Qed.

Lemma fancy_index_fmap arr idx out :
  fancy_index arr idx = Ok out -> out = (fun i => nth i arr 0) <$> idx.
Proof.
  intros H%fancy_index_Forall2.
  induction H as [|i x idx out Hx _ IH]; simpl; [done |].
  f_equal; [| done]. symmetry. by apply nth_lookup_Some.
Qed.

Lemma fmap_nth_seq (arr : list Z) :
  (fun i => nth i arr 0) <$> seq 0 (length arr) = arr.
Proof.
  apply list_eq. intros i. rewrite list_lookup_fmap.
  destruct (decide (i < length arr)%nat) as [Hlt | Hge].
  - rewrite lookup_seq_lt by done. simpl.
    destruct (lookup_lt_is_Some_2 arr i Hlt) as [x Hx].
    rewrite Hx. f_equal. by apply nth_lookup_Some.
  - rewrite lookup_seq_ge by lia. simpl.
    symmetry. apply lookup_ge_None. lia.
Qed.

(** Re-ordering an array by a permutation of its index range permutes it. *)
Lemma fancy_index_perm arr idx out :
  idx ≡ₚ seq 0 (length arr) -> fancy_index arr idx = Ok out -> out ≡ₚ arr.
Proof.
  intros Hperm ->%fancy_index_fmap.
  rewrite Hperm. by rewrite fmap_nth_seq.
Qed.

Lemma fancy_index_perm_returns arr idx :
  idx ≡ₚ seq 0 (length arr) -> exists out, fancy_index arr idx = Ok out.
Proof.
  intros Hperm. apply fancy_index_returns.
  apply Forall_forall. intros i Hi. rewrite Hperm in Hi.
  apply elem_of_seq in Hi. lia.
Qed.

Lemma index_to_temporalID_returns n s M :
  Z.of_nat n <= M ->
  index_to_temporalID n s M
  = Ok ((fun k : nat => encode M s (Z.of_nat k)) <$> seq 0 n).
Proof.
  intros Hle. unfold index_to_temporalID.
  assert (forallb (fun k : nat => Z.of_nat k <? M) (seq 0 n) = true) as ->; [| done].
  apply forallb_forall. intros k Hk%in_seq. apply Z.ltb_lt. lia.
Qed.

Lemma index_to_temporalID_inv n s M news :
  index_to_temporalID n s M = Ok news ->
  news = (fun k : nat => encode M s (Z.of_nat k)) <$> seq 0 n
  /\ forall k, (k < n)%nat -> Z.of_nat k < M.
Proof.
  unfold index_to_temporalID. destruct (forallb _ _) eqn:Hall; [| done].
  intros [= <-]. split; [done |]. intros k Hk.
  rewrite forallb_forall in Hall. apply Z.ltb_lt, Hall, in_seq. lia.
Qed.

(** What one successful iteration of the first loop has done. *)
Lemma pass1_step_inv args f SN (st st' : tables) snap :
  pass1_step args f SN st snap = Ok st' ->
  exists ids, h5get f snap (halo_id args) = Ok ids /\
    ((ids = [] /\ st' = st) \/
     (ids <> [] /\ exists indices sorted s,
        get_sort_indices f snap args = Ok indices /\
        fancy_index ids indices = Ok sorted /\
        SN !! snap = Some s /\
        (forall k, (k < length indices)%nat ->
                   Z.of_nat k < index_mult_factor args) /\
        st' = (<[s := dict_zip sorted
                         ((fun k : nat => encode (index_mult_factor args) s (Z.of_nat k))
                            <$> seq 0 (length indices))]> st.1,
               <[snap := indices]> st.2))).
Proof.
  unfold pass1_step. intros H.
  destruct (h5get f snap (halo_id args)) as [ids|] eqn:Hids; simpl in H; [| done].
  exists ids. split; [done |].
  destruct ids as [|x ids]; cbn in H.
  { injection H as <-. by left. }
  destruct (get_sort_indices f snap args) as [indices|]; cbn in H; [| done].
  destruct (fancy_index (x :: ids) indices) as [sorted|] eqn:Hs; cbn in H; [| done].
  destruct (SN !! snap) as [s|]; cbn in H; [| done].
  destruct (index_to_temporalID _ _ _) as [news|] eqn:Hnews; cbn in H; [| done].
  apply index_to_temporalID_inv in Hnews as [-> Hrange].
  injection H as <-. right. split; [done |]. by exists indices, sorted, s.
Qed.

(** C3 (as the code has it): a repeated value in the unique-ID field of a
    non-empty snapshot raises no error while its table is built; the table
    stored by pass 1 has the distinct old IDs as its keys, hence fewer
    entries than the snapshot has records. *)
Theorem pass1_step_duplicate_ids args f SN (st : tables) snap g ids indices s :
  assoc snap f = Some g ->
  record_count g (length ids) ->
  assoc (halo_id args) g = Some ids ->
  ids <> [] ->
  get_sort_indices f snap args = Ok indices ->
  SN !! snap = Some s ->
  Z.of_nat (length ids) <= index_mult_factor args ->
  exists table : gmap Z Z,
    pass1_step args f SN st snap
    = Ok (<[s := table]> st.1, <[snap := indices]> st.2)
    /\ dom table = list_to_set ids
    /\ (~ NoDup ids -> (size table < length ids)%nat).
Proof.
  intros Hg Hn Hids Hne Hidx Hs HM.
  pose proof (get_sort_indices_perm _ _ _ _ _ _ Hg Hn Hidx) as Hperm.
  destruct (fancy_index_perm_returns ids indices Hperm) as [sorted Hsorted].
  pose proof (fancy_index_perm _ _ _ Hperm Hsorted) as Hsp.
  assert (length indices = length ids) as Hlen.
  { by rewrite Hperm, length_seq. }
  eexists. split; [| split].
  - unfold pass1_step. rewrite (h5get_intro _ _ _ _ _ Hg Hids). simpl.
    destruct ids as [|x ids]; [done |]. simpl.
    rewrite Hidx. simpl. rewrite Hsorted. simpl. rewrite Hs. simpl.
    rewrite index_to_temporalID_returns by (rewrite Hlen; exact HM).
    simpl. reflexivity.
  - rewrite dict_zip_dom.
    + apply set_eq. intros x. rewrite !elem_of_list_to_set. by rewrite Hsp.
    + rewrite length_fmap, length_seq.
      by apply fancy_index_length in Hsorted.
  - intros Hdup. rewrite <- size_dom. rewrite dict_zip_dom.
    + assert (list_to_set sorted = (list_to_set ids : gset Z)) as ->.
      { apply set_eq. intros x. rewrite !elem_of_list_to_set. by rewrite Hsp. }
      by apply list_to_set_size_dup.
    + rewrite length_fmap, length_seq.
      by apply fancy_index_length in Hsorted.
Qed.

Lemma pass1_step_duplicate_ids_witness :
  exists table : gmap Z Z,
    pass1_step id_args dup_file (list_to_map numbers_from_0) (∅, ∅) "Snap_001"
    = Ok (<[1 := table]> ∅, <["Snap_001"%string := [1; 0]%nat]> ∅)
    /\ dom table = list_to_set [11; 11]
    /\ (~ NoDup [11; 11] -> (size table < length [11; 11])%nat).
Proof.
  apply (pass1_step_duplicate_ids id_args dup_file (list_to_map numbers_from_0)
           (∅, ∅) "Snap_001"
           [("ForestID"%string, [2; 1]); ("ID"%string, [11; 11]);
            ("Mass"%string, [5; 6])]
           [11; 11] [1; 0]%nat 1).
  - reflexivity.
  - repeat constructor.
  - reflexivity.
  - discriminate.
  - vm_compute. reflexivity.
  - vm_compute. reflexivity.
  - simpl. lia.
Defined.

(** C3, refuted as stated: both halos of the snapshot carry the ID 11; pass 1
    succeeds with a one-entry table for the two records, the whole run
    succeeds, and both halos leave with the same new ID 11. *)
Lemma duplicate_ids_silently_accepted :
  h5get dup_file "Snap_001" "ID" = Ok [11; 11]
  /\ (exists tb,
        pass1 id_args dup_file ["Snap_001"%string] (list_to_map numbers_from_0)
        = Ok tb
        /\ tb.1 !! 1 = Some {[ 11 := 11 ]})
  /\ (sort_and_write_file (snaps_of_table numbers_from_0) id_args dup_file).2
     = Ok tt
  /\ (g ← (sort_and_write_file (snaps_of_table numbers_from_0) id_args dup_file).1
            !! "Snap_001"%string;
      g !! "ID"%string) = Some [11; 11].
Proof.
  split; [reflexivity |].
  split; [eexists; split; vm_compute; reflexivity |].
  split; vm_compute; reflexivity.
Qed.

(** ** Pass 2 *)

Lemma lookup_newID_error m s v e : lookup_newID m s v = Raise e -> e = KeyError.
Proof.
  unfold lookup_newID. destruct (m !! s) as [t|]; simpl; [| congruence].
  destruct (t !! v); simpl; congruence.
Qed.

Lemma lookup_newIDs_Forall2 m pairs out :
  lookup_newIDs m pairs = Ok out
  <-> Forall2 (fun p x => lookup_newID m p.1 p.2 = Ok x) pairs out.
Proof.
  revert out. induction pairs as [|[s v] pairs IH]; intros out; simpl.
  - split; [intros [= <-]; constructor | by intros ->%Forall2_nil_inv_l].
  - destruct (lookup_newID m s v) as [x|] eqn:Hx; simpl.
    + destruct (lookup_newIDs m pairs) as [xs|]; simpl.
      * split.
        -- intros [= <-]. constructor; [done | by apply IH].
        -- intros (y & ys & Hy & Hys & ->)%Forall2_cons_inv_l.
           apply IH in Hys. simpl in Hy. congruence.
      * split; [done |].
        intros (y & ys & Hy & Hys & ->)%Forall2_cons_inv_l.
        by apply IH in Hys.
    + split; [done |].
      intros (y & ys & Hy & Hys & ->)%Forall2_cons_inv_l.
      simpl in Hy. congruence.
Qed.

Lemma lookup_newIDs_error m pairs e :
  lookup_newIDs m pairs = Raise e -> e = KeyError.
Proof.
  induction pairs as [|[s v] pairs IH]; simpl; [done |].
  destruct (lookup_newID m s v) as [x|] eqn:Hx; simpl.
  - destruct (lookup_newIDs m pairs) as [xs|]; simpl; [done |].
    intros [= <-]. by apply IH.
  - intros [= <-]. by eapply lookup_newID_error.
Qed.

Lemma lookup_newIDs_fails m pairs s v :
  (s, v) ∈ pairs -> lookup_newID m s v = Raise KeyError ->
  lookup_newIDs m pairs = Raise KeyError.
Proof.
  intros Hin Hv.
  destruct (lookup_newIDs m pairs) as [out|e] eqn:Hout.
  - apply lookup_newIDs_Forall2 in Hout.
    apply list_elem_of_lookup in Hin as [i Hi].
    destruct (Forall2_lookup_l _ _ _ _ _ Hout Hi) as (x & _ & Hx).
    simpl in Hx. congruence.
  - f_equal. by eapply lookup_newIDs_error.
Qed.

Lemma elem_of_zip_fmap {A B} (f : A -> B) (l : list A) x :
  x ∈ l -> (f x, x) ∈ zip (f <$> l) l.
Proof.
  induction 1 as [x l | x y l _ IH]; simpl; [left | by right].
Qed.

Lemma to_write_fails args f m key field oldID v :
  field ∈ ID_fields args ->
  h5get f key field = Ok oldID ->
  v ∈ oldID ->
  lookup_newID m (decode (index_mult_factor args) v).1 v = Raise KeyError ->
  to_write args f m key field = Raise KeyError.
Proof.
  intros Hfield Hold Hv Hlook. unfold to_write.
  rewrite bool_decide_eq_true_2 by done. rewrite Hold. simpl.
  eapply lookup_newIDs_fails; [| exact Hlook].
  unfold temporalID_to_snapnum.
  by apply (elem_of_zip_fmap (fun id => (decode (index_mult_factor args) id).1)).
Qed.

Lemma write_field_raises args f tb key field o e :
  sorted_field args f tb key field = Raise e ->
  write_field args f tb key field o = (o, Raise e).
Proof. intros H. unfold write_field. by rewrite H. Qed.

Lemma write_fields_raises args f tb key fields field e0 o :
  field ∈ fields ->
  sorted_field args f tb key field = Raise e0 ->
  exists o' e, write_fields args f tb key fields o = (o', Raise e).
Proof.
  intros Hin Hraise. revert o.
  induction fields as [|field0 rest IH]; intros o; [by apply elem_of_nil in Hin |].
  simpl.
  destruct (write_field args f tb key field0 o) as [o1 [[]|e]] eqn:Hw;
    [| by exists o1, e].
  apply elem_of_cons in Hin as [<- | Hin].
  - rewrite (write_field_raises _ _ _ _ _ _ _ Hraise) in Hw. discriminate.
  - by apply IH.
Qed.

Lemma pass2_raises args f tb keys key :
  key ∈ keys ->
  (forall o, exists o' e, write_group args f tb key o = (o', Raise e)) ->
  forall o, exists o' e, pass2 args f tb keys o = (o', Raise e).
Proof.
  intros Hin Hraise.
  induction keys as [|key0 rest IH]; intros o; [by apply elem_of_nil in Hin |].
  simpl.
  destruct (write_group args f tb key0 o) as [o1 [[]|e]] eqn:Hw;
    [| by exists o1, e].
  apply elem_of_cons in Hin as [<- | Hin].
  - destruct (Hraise o) as (o' & e & He). congruence.
  - by apply IH.
Qed.

Lemma assoc_fst {V} name (l : list (string * V)) v :
  assoc name l = Some v -> name ∈ l.*1.
Proof.
  intros H%assoc_elem_of.
  apply list_elem_of_fmap. by exists (name, v).
Qed.

Lemma write_group_raises args f tb key g field e0 o :
  assoc key f = Some g ->
  field ∈ g.*1 ->
  sorted_field args f tb key field = Raise e0 ->
  exists o' e, write_group args f tb key o = (o', Raise e).
Proof.
  intros Hg Hfield Hraise. unfold write_group, copy_group.
  rewrite Hg. simpl. by eapply write_fields_raises.
Qed.

Lemma pass1_zero_table args f keys SN (tb : tables) :
  pass1 args f keys SN = Ok tb -> tb.1 !! 0 = Some {[ -1 := -1 ]}.
Proof.
  unfold pass1. destruct (pass1_loop args f SN keys (∅, ∅)) as [st|]; simpl; [| done].
  intros [= <-]. simpl. apply lookup_insert_eq.
Qed.

Lemma sorted_field_raises args f (tb : tables) key field ids e :
  h5get f key (halo_id args) = Ok ids -> ids <> [] ->
  to_write args f tb.1 key field = Raise e ->
  sorted_field args f tb key field = Raise e.
Proof.
  intros Hids Hne Hw. unfold sorted_field. rewrite Hids.
  destruct ids as [|x ids]; [done |]. cbn. by rewrite Hw.
Qed.

(** C10: after pass 1 the entry of ID_maps under snapshot number 0 is
    exactly {-1: -1}; hence for an identifier-field value other than -1 that
    decodes to snapshot 0 the lookup ID_maps[0][v] raises KeyError, the
    comprehension over that field raises KeyError, and the run ends in an
    exception, whatever table pass 1 had built for snapshot 0. *)
Theorem snapshot_zero_lookup_fails gsn args f (tb : tables) :
  pass1 args f (gsn f.*1).1 (gsn f.*1).2 = Ok tb ->
  tb.1 !! 0 = Some {[ -1 := -1 ]}
  /\ forall key g ids field oldID v,
       assoc key f = Some g ->
       assoc (halo_id args) g = Some ids -> ids <> [] ->
       assoc field g = Some oldID ->
       field ∈ ID_fields args ->
       v ∈ oldID -> v <> -1 ->
       (decode (index_mult_factor args) v).1 = 0 ->
       lookup_newID tb.1 (decode (index_mult_factor args) v).1 v = Raise KeyError
       /\ to_write args f tb.1 key field = Raise KeyError
       /\ exists out e, sort_and_write_file gsn args f = (out, Raise e).
Proof.
  intros Hp1. pose proof (pass1_zero_table _ _ _ _ _ Hp1) as Hzero.
  split; [done |].
  intros key g ids field oldID v Hg Hids Hne Hold Hfield Hv Hv1 Hdec.
  assert (lookup_newID tb.1 (decode (index_mult_factor args) v).1 v
          = Raise KeyError) as Hlook.
  { unfold lookup_newID. rewrite Hdec, Hzero. simpl.
    by rewrite lookup_singleton_ne. }
  assert (to_write args f tb.1 key field = Raise KeyError) as Hw.
  { eapply to_write_fails; [done | by eapply h5get_intro | done..]. }
  split; [done |]. split; [done |].
  unfold sort_and_write_file.
  destruct (gsn f.*1) as [Snap_Keys Snap_Nums]. simpl in Hp1. rewrite Hp1.
  apply pass2_raises with (key := key); [by eapply assoc_fst |].
  intros o. eapply write_group_raises; [done | by eapply assoc_fst |].
  eapply sorted_field_raises; [by eapply h5get_intro | done..].
Qed.

Lemma snapshot_zero_lookup_fails_witness :
  exists tb : tables,
    pass1 small_args two_snapshots ["Snap_000"; "Snap_001"]%string
      (list_to_map numbers_from_0) = Ok tb
    /\ tb.1 !! 0 = Some {[ -1 := -1 ]}
    /\ lookup_newID tb.1 (decode 10 1).1 1 = Raise KeyError
    /\ to_write small_args two_snapshots tb.1 "Snap_001" "Tail" = Raise KeyError
    /\ exists out e,
         sort_and_write_file (snaps_of_table numbers_from_0) small_args two_snapshots
         = (out, Raise e).
Proof.
  destruct (pass1 small_args two_snapshots ["Snap_000"; "Snap_001"]%string
              (list_to_map numbers_from_0)) as [tb|e] eqn:Hp1;
    [| vm_compute in Hp1; discriminate].
  exists tb. split; [reflexivity |].
  destruct (snapshot_zero_lookup_fails (snaps_of_table numbers_from_0)
              small_args two_snapshots tb Hp1) as [Hzero Hall].
  split; [exact Hzero |].
  apply (Hall "Snap_001"%string
           [("ForestID"%string, [1]); ("Head"%string, [-1]);
            ("ID"%string, [10]); ("Tail"%string, [1])]
           [10] "Tail"%string [1] 1).
  - reflexivity.
  - reflexivity.
  - discriminate.
  - reflexivity.
  - right. left.
  - left.
  - lia.
  - reflexivity.
Defined.

(** The table that the first loop builds for a non-empty snapshot 0 is gone
    when pass 1 ends. *)
Example snapshot_zero_table_replaced :
  (st ← pass1_loop small_args two_snapshots (list_to_map numbers_from_0)
          ["Snap_000"; "Snap_001"]%string (∅, ∅);
   Ok (st.1 !! 0))
  = Ok (Some {[ 1 := 0; 0 := 1 ]})
  /\ (tb ← pass1 small_args two_snapshots ["Snap_000"; "Snap_001"]%string
             (list_to_map numbers_from_0);
      Ok (tb.1 !! 0))
     = Ok (Some {[ -1 := -1 ]}).
Proof. split; vm_compute; reflexivity. Qed.

(** ** What an exception leaves in the output file *)

Lemma write_fields_stops args f tb key done field rest o o1 o2 e :
  write_fields args f tb key done o = (o1, Ok tt) ->
  write_field args f tb key field o1 = (o2, Raise e) ->
  write_fields args f tb key (done ++ field :: rest) o = (o2, Raise e).
Proof.
  revert o. induction done as [|field0 done IH]; intros o; simpl.
  - intros [= <-] ->. done.
  - destruct (write_field args f tb key field0 o) as [o' [[]|e']]; [| done].
    apply IH.
Qed.

Lemma pass2_stops args f tb done key rest o o1 o2 e :
  pass2 args f tb done o = (o1, Ok tt) ->
  write_group args f tb key o1 = (o2, Raise e) ->
  pass2 args f tb (done ++ key :: rest) o = (o2, Raise e).
Proof.
  revert o. induction done as [|key0 done IH]; intros o; simpl.
  - intros [= <-] ->. done.
  - destruct (write_group args f tb key0 o) as [o' [[]|e']]; [| done].
    apply IH.
Qed.

Lemma write_field_raise_unchanged args f tb key field o o' e :
  write_field args f tb key field o = (o', Raise e) -> o' = o.
Proof.
  unfold write_field.
  destruct (sorted_field args f tb key field) as [[arr|]|e']; [| congruence..].
  destruct (h5write o key field arr); congruence.
Qed.

(** C9 (as the code has it): an exception is passed on to the caller, but
    nothing written so far is taken back.  Raised in pass 1 it leaves the
    newly created output file empty; raised in pass 2 it leaves the file
    as it stands at that moment: the groups before the failing one
    rewritten, and in the failing group, copied beforehand, the fields
    before the failing one rewritten and the others as copied. *)
Theorem exception_keeps_partial_output gsn args f :
  (forall e,
     pass1 args f (gsn f.*1).1 (gsn f.*1).2 = Raise e ->
     sort_and_write_file gsn args f = (∅, Raise e))
  /\ (forall tb done key g rest fdone field frest o1 o2 o3 e,
        pass1 args f (gsn f.*1).1 (gsn f.*1).2 = Ok tb ->
        f.*1 = done ++ key :: rest ->
        pass2 args f tb done ∅ = (o1, Ok tt) ->
        assoc key f = Some g ->
        g.*1 = fdone ++ field :: frest ->
        write_fields args f tb key fdone (<[key := list_to_map g]> o1)
        = (o2, Ok tt) ->
        write_field args f tb key field o2 = (o3, Raise e) ->
        sort_and_write_file gsn args f = (o2, Raise e)).
Proof.
  split.
  - intros e Hp1. unfold sort_and_write_file.
    destruct (gsn f.*1) as [Snap_Keys Snap_Nums]. simpl in Hp1. by rewrite Hp1.
  - intros tb done key g rest fdone field frest o1 o2 o3 e
           Hp1 Hkeys Hdone Hg Hfields Hfdone Hraise.
    pose proof (write_field_raise_unchanged _ _ _ _ _ _ _ _ Hraise) as ->.
    unfold sort_and_write_file.
    destruct (gsn f.*1) as [Snap_Keys Snap_Nums]. simpl in Hp1. rewrite Hp1, Hkeys.
    eapply pass2_stops; [exact Hdone |].
    unfold write_group, copy_group. rewrite Hg. simpl. rewrite Hfields.
    by eapply write_fields_stops.
Qed.

Lemma exception_keeps_partial_output_witness :
  exists o2,
    sort_and_write_file (snaps_of_table numbers_from_1) dangling_args
      dangling_file = (o2, Raise KeyError)
    /\ o2 !! "Snap_002"%string
       = Some (list_to_map
                 [("ForestID"%string, [3; 4]); ("Head"%string, [-1; 37]);
                  ("ID"%string, [21; 22]); ("Mass"%string, [8; 9])]).
Proof.
  eexists. split.
  - eapply (proj2 (exception_keeps_partial_output
                     (snaps_of_table numbers_from_1) dangling_args dangling_file))
      with (done := ["Header"; "Snap_001"]%string) (key := "Snap_002"%string)
           (rest := []) (fdone := ["ForestID"]%string) (field := "Head"%string)
           (frest := ["ID"; "Mass"]%string).
    + vm_compute. reflexivity.
    + reflexivity.
    + vm_compute. reflexivity.
    + reflexivity.
    + reflexivity.
    + vm_compute. reflexivity.
    + vm_compute. reflexivity.
  - vm_compute. reflexivity.
Defined.

(** C9, refuted as stated: the reference 37 in the last snapshot makes the
    run raise KeyError; the output file then holds the first snapshot in
    sorted order and, of the last one, ForestID in sorted order next to
    Head, ID and Mass in the order of the input. *)
Lemma partial_output_left_behind :
  let r := sort_and_write_file (snaps_of_table numbers_from_1)
             dangling_args dangling_file in
  r.2 = Raise KeyError
  /\ r.1 !! "Snap_001"%string
     = Some (list_to_map
               [("ForestID"%string, [1; 2]); ("Head"%string, [20; 21]);
                ("ID"%string, [10; 11]); ("Mass"%string, [6; 5])])
  /\ r.1 !! "Snap_002"%string
     = Some (list_to_map
               [("ForestID"%string, [3; 4]); ("Head"%string, [-1; 37]);
                ("ID"%string, [21; 22]); ("Mass"%string, [8; 9])])
  /\ assoc "Snap_002" dangling_file
     = Some [("ForestID"%string, [4; 3]); ("Head"%string, [-1; 37]);
             ("ID"%string, [21; 22]); ("Mass"%string, [8; 9])].
Proof. repeat split; vm_compute; reflexivity. Qed.

(** ** What a successful run has written *)

Lemma list_to_map_assoc (g : h5group) field :
  (list_to_map g : gmap string (list Z)) !! field = assoc field g.
Proof.
  induction g as [|[n v] g IH]; [done |].
  rewrite list_to_map_cons. simpl.
  destruct (String.eqb_spec n field) as [-> | Hne].
  - apply lookup_insert_eq.
  - by rewrite lookup_insert_ne.
Qed.

Lemma broadcast_length n arr new : broadcast n arr = Ok new -> length new = n.
Proof.
  unfold broadcast. destruct (Nat.eqb_spec (length arr) n) as [<- | Hne].
  - by intros [= <-].
  - destruct arr as [|x [|y arr]]; [done | | done].
    intros [= <-]. apply length_replicate.
Qed.

Lemma h5write_inv (o o' : h5out) key field arr :
  h5write o key field arr = Ok o' ->
  exists g old new,
    o !! key = Some g /\ g !! field = Some old /\
    broadcast (length old) arr = Ok new /\
    o' = <[key := <[field := new]> g]> o.
Proof.
  unfold h5write. destruct (o !! key) as [g|]; simpl; [| done].
  destruct (g !! field) as [old|] eqn:Hold; simpl; [| done].
  destruct (broadcast (length old) arr) as [new|] eqn:Hnew; simpl; [| done].
  intros [= <-]. by exists g, old, new.
Qed.

Lemma write_field_inv args f tb key field (o o' : h5out) :
  write_field args f tb key field o = (o', Ok tt) ->
  (sorted_field args f tb key field = Ok None /\ o' = o)
  \/ exists arr, sorted_field args f tb key field = Ok (Some arr)
                 /\ h5write o key field arr = Ok o'.
Proof.
  unfold write_field.
  destruct (sorted_field args f tb key field) as [[arr|]|e]; [| | done].
  - destruct (h5write o key field arr) as [o1|] eqn:Hw; [| done].
    intros [= <-]. right. by exists arr.
  - intros [= <-]. by left.
Qed.

Lemma written_allocated o key field n arr :
  written o key field n arr -> allocated o key field n.
Proof.
  intros (g & new & Hg & Hnew & Hb). exists g, new.
  split; [done |]. split; [done |]. by eapply broadcast_length.
Qed.

Lemma write_field_allocated args f tb key field2 o o' r field n :
  write_field args f tb key field2 o = (o', r) ->
  allocated o key field n -> allocated o' key field n.
Proof.
  intros Hw Halloc. destruct r as [[]|e].
  - apply write_field_inv in Hw as [[_ ->] | (arr & _ & Hw)]; [done |].
    apply h5write_inv in Hw as (g & old & new & Hg & Hold & Hnew & ->).
    destruct Halloc as (g' & cur & Hg' & Hcur & Hlen).
    assert (g' = g) as -> by congruence.
    destruct (decide (field2 = field)) as [-> | Hne].
    + exists (<[field := new]> g), new.
      rewrite !lookup_insert_eq. split; [done |]. split; [done |].
      apply broadcast_length in Hnew. congruence.
    + exists (<[field2 := new]> g), cur.
      rewrite lookup_insert_eq, lookup_insert_ne by done. done.
  - by apply write_field_raise_unchanged in Hw as ->.
Qed.

Lemma write_field_writes args f tb key field o o' n arr :
  write_field args f tb key field o = (o', Ok tt) ->
  sorted_field args f tb key field = Ok (Some arr) ->
  allocated o key field n -> written o' key field n arr.
Proof.
  intros Hw Hs Halloc.
  apply write_field_inv in Hw as [[Hnone _] | (arr' & Hs' & Hw)]; [congruence |].
  assert (arr' = arr) as -> by congruence.
  apply h5write_inv in Hw as (g & old & new & Hg & Hold & Hnew & ->).
  destruct Halloc as (g' & cur & Hg' & Hcur & Hlen).
  assert (g' = g) as -> by congruence.
  assert (cur = old) as -> by congruence.
  exists (<[field := new]> g), new. rewrite !lookup_insert_eq.
  split; [done |]. split; [done |]. by rewrite <- Hlen.
Qed.

Lemma write_field_written args f tb key field2 o o' field n arr :
  write_field args f tb key field2 o = (o', Ok tt) ->
  sorted_field args f tb key field = Ok (Some arr) ->
  written o key field n arr -> written o' key field n arr.
Proof.
  intros Hw Hs Hwr.
  destruct (decide (field2 = field)) as [-> | Hne].
  - eapply write_field_writes; [done.. |]. by eapply written_allocated.
  - apply write_field_inv in Hw as [[_ ->] | (arr' & _ & Hw)]; [done |].
    apply h5write_inv in Hw as (g & old & new & Hg & Hold & Hnew & ->).
    destruct Hwr as (g' & cur & Hg' & Hcur & Hb).
    assert (g' = g) as -> by congruence.
    exists (<[field2 := new]> g), cur.
    rewrite lookup_insert_eq, lookup_insert_ne by done. done.
Qed.

Lemma write_fields_written args f tb key fields o o' field n arr :
  write_fields args f tb key fields o = (o', Ok tt) ->
  sorted_field args f tb key field = Ok (Some arr) ->
  written o key field n arr -> written o' key field n arr.
Proof.
  intros Hw Hs. revert o Hw.
  induction fields as [|field0 rest IH]; intros o; simpl.
  - by intros [= <-].
  - destruct (write_field args f tb key field0 o) as [o1 [[]|e]] eqn:Hw0; [| done].
    intros Hrest Hwr. eapply IH; [done |].
    by eapply write_field_written.
Qed.

Lemma write_fields_writes args f tb key fields o o' field n arr :
  field ∈ fields ->
  write_fields args f tb key fields o = (o', Ok tt) ->
  sorted_field args f tb key field = Ok (Some arr) ->
  allocated o key field n -> written o' key field n arr.
Proof.
  intros Hin Hw Hs. revert o Hw.
  induction fields as [|field0 rest IH]; intros o; simpl;
    [by apply elem_of_nil in Hin |].
  destruct (write_field args f tb key field0 o) as [o1 [[]|e]] eqn:Hw0; [| done].
  intros Hrest Halloc.
  destruct (decide (field0 = field)) as [-> | Hne].
  - eapply write_fields_written; [done.. |].
    by eapply write_field_writes.
  - apply elem_of_cons in Hin as [-> | Hin]; [done |].
    eapply IH; [done.. |]. by eapply write_field_allocated.
Qed.

Lemma write_field_other_key args f tb key2 field o o' r key :
  key2 <> key ->
  write_field args f tb key2 field o = (o', r) -> o' !! key = o !! key.
Proof.
  intros Hne Hw. destruct r as [[]|e].
  - apply write_field_inv in Hw as [[_ ->] | (arr & _ & Hw)]; [done |].
    apply h5write_inv in Hw as (g & old & new & _ & _ & _ & ->).
    by rewrite lookup_insert_ne.
  - by apply write_field_raise_unchanged in Hw as ->.
Qed.

Lemma write_fields_other_key args f tb key2 fields o o' r key :
  key2 <> key ->
  write_fields args f tb key2 fields o = (o', r) -> o' !! key = o !! key.
Proof.
  intros Hne. revert o.
  induction fields as [|field rest IH]; intros o; simpl.
  - by intros [= <- _].
  - destruct (write_field args f tb key2 field o) as [o1 [[]|e]] eqn:Hw.
    + intros Hrest. rewrite (IH _ Hrest). by eapply write_field_other_key.
    + intros [= <- _]. by eapply write_field_other_key.
Qed.

Lemma write_group_other_key args f tb key2 o o' r key :
  key2 <> key ->
  write_group args f tb key2 o = (o', r) -> o' !! key = o !! key.
Proof.
  intros Hne. unfold write_group, copy_group.
  destruct (assoc key2 f) as [g|]; simpl.
  - intros Hw. rewrite (write_fields_other_key _ _ _ _ _ _ _ _ _ Hne Hw).
    by rewrite lookup_insert_ne.
  - by intros [= <- _].
Qed.

Lemma pass2_other_keys args f tb keys o o' r key :
  key ∉ keys ->
  pass2 args f tb keys o = (o', r) -> o' !! key = o !! key.
Proof.
  revert o. induction keys as [|key0 rest IH]; intros o Hnotin; simpl.
  - by intros [= <- _].
  - apply not_elem_of_cons in Hnotin as [Hne Hnotin].
    destruct (write_group args f tb key0 o) as [o1 [[]|e]] eqn:Hw.
    + intros Hrest. rewrite (IH _ Hnotin Hrest).
      by eapply write_group_other_key.
    + intros [= <- _]. by eapply write_group_other_key.
Qed.

Lemma written_same_group o o' key field n arr :
  o' !! key = o !! key -> written o key field n arr -> written o' key field n arr.
Proof.
  intros Heq (g & new & Hg & Hnew). exists g, new. by rewrite Heq.
Qed.

Lemma write_group_writes args f tb key g field arr_in arr o o' :
  assoc key f = Some g ->
  assoc field g = Some arr_in ->
  write_group args f tb key o = (o', Ok tt) ->
  sorted_field args f tb key field = Ok (Some arr) ->
  written o' key field (length arr_in) arr.
Proof.
  intros Hg Hfield Hw Hs. unfold write_group, copy_group in Hw.
  rewrite Hg in Hw. simpl in Hw.
  eapply write_fields_writes; [by eapply assoc_fst | done.. |].
  exists (list_to_map g), arr_in. rewrite lookup_insert_eq.
  split; [done |]. split; [| done]. by rewrite list_to_map_assoc.
Qed.

Lemma pass2_writes args f tb keys key g field arr_in arr o o' :
  key ∈ keys ->
  assoc key f = Some g ->
  assoc field g = Some arr_in ->
  pass2 args f tb keys o = (o', Ok tt) ->
  sorted_field args f tb key field = Ok (Some arr) ->
  written o' key field (length arr_in) arr.
Proof.
  intros Hin Hg Hfield Hp Hs. revert o Hin Hp.
  induction keys as [|key0 rest IH]; intros o Hin; simpl;
    [by apply elem_of_nil in Hin |].
  destruct (write_group args f tb key0 o) as [o1 [[]|e]] eqn:Hw; [| done].
  intros Hrest.
  destruct (decide (key ∈ rest)) as [Hin' | Hnotin]; [by eapply IH |].
  apply elem_of_cons in Hin as [-> | Hin]; [| done].
  eapply written_same_group; [by eapply pass2_other_keys |].
  by eapply write_group_writes.
Qed.

(** In a run that ends normally no iteration has raised. *)
Lemma pass2_ok_sorted_field args f tb keys key g field ids o o' :
  key ∈ keys ->
  assoc key f = Some g ->
  field ∈ g.*1 ->
  assoc (halo_id args) g = Some ids -> ids <> [] ->
  pass2 args f tb keys o = (o', Ok tt) ->
  exists arr, sorted_field args f tb key field = Ok (Some arr).
Proof.
  intros Hin Hg Hfield Hids Hne Hp.
  destruct (sorted_field args f tb key field) as [[arr|]|e] eqn:Hs.
  - by exists arr.
  - unfold sorted_field in Hs.
    rewrite (h5get_intro _ _ _ _ _ Hg Hids) in Hs.
    destruct ids as [|x ids]; [done |]. cbn in Hs.
    destruct (to_write args f tb.1 key field); cbn in Hs; [| done].
    destruct (tb.2 !! key); cbn in Hs; [| done].
    destruct (fancy_index _ _); cbn in Hs; done.
  - destruct (pass2_raises args f tb keys key Hin) with (o := o) as (o1 & e1 & He1).
    + intros o2. by eapply write_group_raises.
    + congruence.
Qed.

Lemma sorted_field_inv args f (tb : tables) key field arr :
  sorted_field args f tb key field = Ok (Some arr) ->
  exists tw indices,
    to_write args f tb.1 key field = Ok tw /\
    tb.2 !! key = Some indices /\
    fancy_index tw indices = Ok arr.
Proof.
  unfold sorted_field.
  destruct (h5get f key (halo_id args)) as [ids|]; [| done].
  destruct (Nat.eqb (length ids) 0); [done |].
  destruct (to_write args f tb.1 key field) as [tw|]; cbn; [| done].
  destruct (tb.2 !! key) as [indices|]; cbn; [| done].
  destruct (fancy_index tw indices) as [out|] eqn:Hout; cbn; [| done].
  intros [= <-]. by exists tw, indices.
Qed.

(** For an identifier field every entry is replaced by what the tables
    give for it. *)
Lemma to_write_ID_field args f m key field g oldID tw :
  field ∈ ID_fields args ->
  assoc key f = Some g -> assoc field g = Some oldID ->
  to_write args f m key field = Ok tw ->
  Forall2 (fun v w => lookup_newID m (decode (index_mult_factor args) v).1 v = Ok w)
          oldID tw.
Proof.
  intros Hfield Hg Hold. unfold to_write.
  rewrite bool_decide_eq_true_2 by done.
  rewrite (h5get_intro _ _ _ _ _ Hg Hold). simpl.
  intros H%lookup_newIDs_Forall2. unfold temporalID_to_snapnum in H.
  revert tw H. clear Hold. induction oldID as [|v oldID IH]; intros tw H.
  - apply Forall2_nil_inv_l in H as ->. constructor.
  - simpl in H. apply Forall2_cons_inv_l in H as (w & tw' & Hw & Htw & ->).
    constructor; [exact Hw | by apply IH].
Qed.

(** [snapshot_indices] only ever holds what [get_sort_indices] returned. *)
Lemma pass1_loop_indices args f SN keys (st st' : tables) :
  pass1_loop args f SN keys st = Ok st' ->
  (forall key idx, st.2 !! key = Some idx -> get_sort_indices f key args = Ok idx) ->
  forall key idx, st'.2 !! key = Some idx -> get_sort_indices f key args = Ok idx.
Proof.
  revert st. induction keys as [|snap rest IH]; intros st; simpl.
  - by intros [= <-].
  - destruct (pass1_step args f SN st snap) as [st1|] eqn:Hstep; simpl; [| done].
    intros Hrest Hinv. eapply IH; [done |].
    apply pass1_step_inv in Hstep as (ids & _ & [[_ ->] | (_ & indices & sorted & s & Hidx & _ & _ & _ & ->)]);
      [done |].
    simpl. intros key idx. destruct (decide (snap = key)) as [-> | Hne].
    + rewrite lookup_insert_eq. by intros [= <-].
    + rewrite lookup_insert_ne by done. apply Hinv.
Qed.

Lemma pass1_indices args f keys SN (tb : tables) key idx :
  pass1 args f keys SN = Ok tb ->
  tb.2 !! key = Some idx -> get_sort_indices f key args = Ok idx.
Proof.
  unfold pass1.
  destruct (pass1_loop args f SN keys (∅, ∅)) as [st|] eqn:Hloop; simpl; [| done].
  intros [= <-]. simpl.
  eapply (pass1_loop_indices _ _ _ _ _ _ Hloop). intros k i. simpl.
  by rewrite lookup_empty.
Qed.

(** ** The sentinel *)

Lemma decode_sentinel M : 1 < M -> (decode M (-1)).1 = 0.
Proof.
  intros HM. unfold decode. simpl.
  change (-1) with (- (1)). rewrite Z.quot_opp_l by lia.
  rewrite Z.quot_small by lia. done.
Qed.

Lemma broadcast_lookup n arr new k x :
  broadcast n arr = Ok new -> arr !! k = Some x -> (k < n)%nat ->
  new !! k = Some x.
Proof.
  unfold broadcast. destruct (Nat.eqb_spec (length arr) n) as [<- | Hne].
  - by intros [= <-].
  - destruct arr as [|y [|z arr]]; [done | | done].
    intros [= <-] Hk Hlt. destruct k as [|k]; [| done].
    injection Hk as ->. by apply lookup_replicate_2.
Qed.

(** What a run that ends normally has written to the dataset of a field of
    a non-empty snapshot: the array of [to_write], re-ordered by the sort
    indices of the snapshot. *)
Lemma run_ok_output gsn args f out key g ids field arr :
  sort_and_write_file gsn args f = (out, Ok tt) ->
  assoc key f = Some g ->
  assoc (halo_id args) g = Some ids -> ids <> [] ->
  assoc field g = Some arr ->
  exists (tb : tables) tw indices sorted,
    pass1 args f (gsn f.*1).1 (gsn f.*1).2 = Ok tb /\
    to_write args f tb.1 key field = Ok tw /\
    get_sort_indices f key args = Ok indices /\
    fancy_index tw indices = Ok sorted /\
    written out key field (length arr) sorted.
Proof.
  intros Hrun Hg Hids Hne Harr.
  unfold sort_and_write_file in Hrun.
  destruct (gsn f.*1) as [Snap_Keys Snap_Nums]. simpl.
  destruct (pass1 args f Snap_Keys Snap_Nums) as [tb|] eqn:Hp1; [| done].
  pose proof (assoc_fst _ _ _ Hg) as Hkey.
  pose proof (assoc_fst _ _ _ Harr) as Hfld.
  destruct (pass2_ok_sorted_field _ _ _ _ _ _ _ _ _ _ Hkey Hg Hfld Hids Hne Hrun)
    as [sorted Hs].
  pose proof (pass2_writes _ _ _ _ _ _ _ _ _ _ _ Hkey Hg Harr Hrun Hs) as Hwr.
  apply sorted_field_inv in Hs as (tw & indices & Htw & Hidx & Hfi).
  apply (pass1_indices _ _ _ _ _ _ _ Hp1) in Hidx.
  by exists tb, tw, indices, sorted.
Qed.

Lemma written_lookup o key field (arr tw sorted : list Z) indices k j x :
  written o key field (length arr) sorted ->
  fancy_index tw indices = Ok sorted ->
  length tw = length arr ->
  indices !! k = Some j -> tw !! j = Some x ->
  exists gout new,
    o !! key = Some gout /\ gout !! field = Some new /\ new !! k = Some x.
Proof.
  intros (gout & new & Hgout & Hnew & Hb) Hfi Hlen Hk Hj.
  exists gout, new. split; [done |]. split; [done |].
  destruct (fancy_index_lookup _ _ _ _ _ Hfi Hk) as (y & Hy & Hy').
  assert (y = x) as -> by congruence.
  eapply broadcast_lookup; [done.. |].
  destruct (decide (length arr = length sorted)) as [Heq | Hneq].
  - rewrite Heq. by eapply lookup_lt_Some.
  - unfold broadcast in Hb.
    destruct (Nat.eqb_spec (length sorted) (length arr)) as [Heq | _]; [lia |].
    destruct sorted as [|y [|z sorted]]; [done | | done].
    apply lookup_lt_Some in Hy. simpl in Hy.
    apply lookup_lt_Some in Hj. lia.
Qed.

Lemma dict_zip_value ks vs k v :
  dict_zip ks vs !! k = Some v -> v ∈ vs.
Proof.
  unfold dict_zip.
  assert (forall (l : list (Z * Z)) (d : gmap Z Z),
            fold_left (fun d kv => <[kv.1 := kv.2]> d) l d !! k = Some v ->
            d !! k = Some v \/ v ∈ l.*2) as Hfold.
  { induction l as [|[k0 v0] l IH]; intros d; simpl; [by left |].
    intros [Hd | Hin]%IH; [| right; by right].
    destruct (decide (k0 = k)) as [-> | Hne].
    - rewrite lookup_insert_eq in Hd. injection Hd as ->. right. left.
    - rewrite lookup_insert_ne in Hd by done. by left. }
  intros [Hempty | Hin]%Hfold; [by rewrite lookup_empty in Hempty |].
  apply list_elem_of_fmap in Hin as ([k' v'] & -> & Hin). simpl.
  apply elem_of_zip_r in Hin. done.
Qed.

Lemma pass1_loop_in_range args f SN keys (st st' : tables) :
  pass1_loop args f SN keys st = Ok st' ->
  new_IDs_in_range (index_mult_factor args) st.1 ->
  new_IDs_in_range (index_mult_factor args) st'.1.
Proof.
  revert st. induction keys as [|snap rest IH]; intros st; simpl.
  - by intros [= <-].
  - destruct (pass1_step args f SN st snap) as [st1|] eqn:Hstep; simpl; [| done].
    intros Hrest Hinv. apply (IH _ Hrest).
    apply pass1_step_inv in Hstep
      as (ids & _ & [[_ ->] | (_ & indices & sorted & s0 & _ & _ & _ & Hrange & ->)]);
      [done |].
    simpl. intros s table v w. destruct (decide (s0 = s)) as [-> | Hne].
    + rewrite lookup_insert_eq. intros [= <-] Hw.
      apply dict_zip_value, list_elem_of_fmap in Hw as (k & -> & Hk).
      apply elem_of_seq in Hk. exists k. split; [apply Hrange; lia | done].
    + rewrite lookup_insert_ne by done. apply Hinv.
Qed.

Lemma pass1_in_range args f keys SN (tb : tables) s :
  pass1 args f keys SN = Ok tb -> s <> 0 ->
  forall (table : gmap Z Z) v w,
    tb.1 !! s = Some table -> table !! v = Some w ->
    exists k : nat, Z.of_nat k < index_mult_factor args
                    /\ w = encode (index_mult_factor args) s (Z.of_nat k).
Proof.
  unfold pass1.
  destruct (pass1_loop args f SN keys (∅, ∅)) as [st|] eqn:Hloop; simpl; [| done].
  intros [= <-] Hs table v w. simpl. rewrite lookup_insert_ne by done.
  apply (pass1_loop_in_range _ _ _ _ _ _ Hloop).
  intros s' table' v' w'. simpl. by rewrite lookup_empty.
Qed.

(** The sentinel is looked up as itself whenever its lookup succeeds. *)
Lemma lookup_newID_sentinel args f keys SN (tb : tables) w :
  0 < index_mult_factor args ->
  pass1 args f keys SN = Ok tb ->
  lookup_newID tb.1 (decode (index_mult_factor args) (-1)).1 (-1) = Ok w ->
  w = -1.
Proof.
  intros HM Hp1 Hlook. unfold lookup_newID in Hlook.
  destruct (decide (index_mult_factor args = 1)) as [H1 | Hne].
  - rewrite H1 in Hlook. change (decode 1 (-1)).1 with (-1) in Hlook.
    destruct (tb.1 !! (-1)) as [table|] eqn:Htable; simpl in Hlook; [| done].
    destruct (table !! (-1)) as [w'|] eqn:Hw; simpl in Hlook; [| done].
    injection Hlook as ->.
    destruct (pass1_in_range _ _ _ _ _ (-1) Hp1 ltac:(done) _ _ _ Htable Hw)
      as (k & Hk & ->).
    unfold encode. lia.
  - rewrite decode_sentinel in Hlook by lia.
    rewrite (pass1_zero_table _ _ _ _ _ Hp1) in Hlook. simpl in Hlook.
    rewrite lookup_singleton_eq in Hlook. simpl in Hlook. congruence.
Qed.

(** In a snapshot whose arrays share their length, every input position is
    sent to some output position. *)
Lemma get_sort_indices_onto f snap args g count indices j :
  assoc snap f = Some g ->
  record_count g count ->
  get_sort_indices f snap args = Ok indices ->
  (j < count)%nat ->
  exists k, indices !! k = Some j.
Proof.
  intros Hg Hcount Hidx Hj.
  pose proof (get_sort_indices_perm _ _ _ _ _ _ Hg Hcount Hidx) as Hperm.
  apply list_elem_of_lookup. rewrite Hperm. apply elem_of_seq. lia.
Qed.

(** C5 (as the code has it): for every multiplier above 1, whatever the
    snapshots and
    their number, the sentinel is mapped to itself.  Once pass 1 has built
    the tables, the lookup that the rewrite makes for an entry -1, that is
    [ID_maps[snap][-1]] with [snap] the snapshot number that -1 decodes to,
    returns -1, so that the entry never makes the rewrite fail.  And in a
    run that ends normally, wherever the sort permutation of the snapshot
    places input position j at output position k and an identifier field
    holds -1 at j in the input, it holds -1 at k in the output. *)
Theorem sentinel_preserved gsn args f :
  1 < index_mult_factor args ->
  (forall keys SN (tb : tables),
     pass1 args f keys SN = Ok tb ->
     lookup_newID tb.1 (decode (index_mult_factor args) (-1)).1 (-1)
     = Ok (-1))
  /\ (forall out key g ids field arr indices j k,
        sort_and_write_file gsn args f = (out, Ok tt) ->
        assoc key f = Some g ->
        assoc (halo_id args) g = Some ids -> ids <> [] ->
        assoc field g = Some arr ->
        field ∈ ID_fields args ->
        arr !! j = Some (-1) ->
        get_sort_indices f key args = Ok indices ->
        indices !! k = Some j ->
        exists gout new,
          out !! key = Some gout /\ gout !! field = Some new
          /\ new !! k = Some (-1)).
Proof.
  intros HM. split.
  - intros keys SN tb Hp1. rewrite decode_sentinel by done.
    unfold lookup_newID. rewrite (pass1_zero_table _ _ _ _ _ Hp1). simpl.
    by rewrite lookup_singleton_eq.
  - intros out key g ids field arr indices j k
      Hrun Hg Hids Hne Harr Hfield Hj Hidx Hk.
    destruct (run_ok_output _ _ _ _ _ _ _ _ _ Hrun Hg Hids Hne Harr)
      as (tb & tw & indices' & sorted & Hp1 & Htw & Hidx' & Hfi & Hwr).
    assert (indices' = indices) as -> by congruence.
    pose proof (to_write_ID_field _ _ _ _ _ _ _ _ Hfield Hg Harr Htw) as Hall.
    destruct (Forall2_lookup_l _ _ _ _ _ Hall Hj) as (w & Hw & Hlook).
    assert (0 < index_mult_factor args) as HM' by lia.
    apply (lookup_newID_sentinel _ _ _ _ _ _ HM' Hp1) in Hlook as ->.
    eapply written_lookup; [done.. | | done | done].
    symmetry. by eapply Forall2_length.
Qed.

Lemma sentinel_preserved_witness :
  (exists tb : tables,
     pass1 linked_args linked_file ["Snap_001"; "Snap_002"]%string
       (list_to_map numbers_from_1) = Ok tb
     /\ lookup_newID tb.1 (decode 10 (-1)).1 (-1) = Ok (-1))
  /\ exists gout new,
       (sort_and_write_file (snaps_of_table numbers_from_1) linked_args
          linked_file).1 !! "Snap_002"%string = Some gout
       /\ gout !! "Tail"%string = Some new /\ new !! 0%nat = Some (-1).
Proof.
  destruct (sentinel_preserved (snaps_of_table numbers_from_1) linked_args
              linked_file) as [Hlookup Hout].
  { simpl. lia. }
  split.
  - destruct (pass1 linked_args linked_file ["Snap_001"; "Snap_002"]%string
                (list_to_map numbers_from_1)) as [tb|e] eqn:Hp1;
      [| vm_compute in Hp1; discriminate].
    exists tb. split; [reflexivity |]. exact (Hlookup _ _ _ Hp1).
  - apply (Hout _ "Snap_002"
             [("ForestID"%string, [2; 1; 1]); ("Head"%string, [-1; -1; -1]);
              ("ID"%string, [20; 21; 22]); ("Mass"%string, [8; 9; 3]);
              ("Tail"%string, [10; 11; -1])]
             [20; 21; 22] "Tail" [10; 11; -1] [2; 1; 0]%nat 2%nat 0%nat).
    + vm_compute. reflexivity.
    + reflexivity.
    + reflexivity.
    + discriminate.
    + reflexivity.
    + right. left.
    + reflexivity.
    + vm_compute. reflexivity.
    + reflexivity.
Defined.

(** C5, refuted as stated: with multiplier 1 the sentinel decodes to the
    snapshot number -1, not 0.  For a single halo without descendant pass 1
    succeeds, with the tables of snapshot 1 and of the sentinel under 0, but
    the lookup made for the entry -1 of Head finds no table under -1 and
    raises KeyError: the field is not rewritten and the run ends with that
    error, the output holding the group as it was copied. *)
Lemma sentinel_lookup_fails_at_multiplier_one :
  let r := sort_and_write_file (snaps_of_table numbers_from_1)
             multiplier_one_args lone_halo_file in
  h5get lone_halo_file "Snap_001" "Head" = Ok [-1]
  /\ decode (index_mult_factor multiplier_one_args) (-1) = (-1, 0)
  /\ (exists tb : tables,
        pass1 multiplier_one_args lone_halo_file ["Snap_001"%string]
          (list_to_map numbers_from_1) = Ok tb
        /\ tb.1 = {[ 0 := {[ -1 := -1 ]}; 1 := {[ 1 := 1 ]} ]}
        /\ lookup_newID tb.1
             (decode (index_mult_factor multiplier_one_args) (-1)).1 (-1)
           = Raise KeyError
        /\ to_write multiplier_one_args lone_halo_file tb.1 "Snap_001" "Head"
           = Raise KeyError)
  /\ r.2 = Raise KeyError
  /\ r.1 = {[ "Snap_001"%string :=
                list_to_map [("ForestID"%string, [1]); ("Head"%string, [-1]);
                             ("ID"%string, [1])] ]}.
Proof.
  split; [reflexivity |]. split; [reflexivity |].
  split; [eexists; repeat split; vm_compute; reflexivity |].
  split; vm_compute; reflexivity.
Qed.

(** The whole output for the two linked snapshots. *)
Example linked_file_sorted :
  let r := sort_and_write_file (snaps_of_table numbers_from_1) linked_args
             linked_file in
  r.2 = Ok tt
  /\ r.1 !! "Header"%string = Some (list_to_map [("BoxSize"%string, [500])])
  /\ r.1 !! "Snap_001"%string
     = Some (list_to_map
               [("ForestID"%string, [1; 2]); ("Head"%string, [21; 22]);
                ("ID"%string, [10; 11]); ("Mass"%string, [6; 5]);
                ("Tail"%string, [-1; -1])])
  /\ r.1 !! "Snap_002"%string
     = Some (list_to_map
               [("ForestID"%string, [1; 1; 2]); ("Head"%string, [-1; -1; -1]);
                ("ID"%string, [20; 21; 22]); ("Mass"%string, [3; 9; 8]);
                ("Tail"%string, [-1; 10; 11])]).
Proof. repeat split; vm_compute; reflexivity. Qed.

(** ** The tables of the snapshots other than snapshot 0 *)

Lemma pass1_step_table args f SN (st st' : tables) snap g ids indices s :
  pass1_step args f SN st snap = Ok st' ->
  assoc snap f = Some g ->
  assoc (halo_id args) g = Some ids -> ids <> [] ->
  get_sort_indices f snap args = Ok indices ->
  SN !! snap = Some s ->
  st'.1 !! s = Some (snapshot_table (index_mult_factor args) s ids indices).
Proof.
  intros Hstep Hg Hids Hne Hidx Hs.
  apply pass1_step_inv in Hstep as (ids' & Hids' & Hcase).
  rewrite (h5get_intro _ _ _ _ _ Hg Hids) in Hids'. injection Hids' as <-.
  destruct Hcase as [[-> _] | (_ & indices' & sorted & s' & Hidx' & Hsorted & Hs' & _ & ->)];
    [done |].
  assert (indices' = indices) as -> by congruence.
  assert (s' = s) as -> by congruence.
  simpl. rewrite lookup_insert_eq. unfold snapshot_table.
  by rewrite (fancy_index_fmap _ _ _ Hsorted).
Qed.

Lemma pass1_step_other_table args f SN (st st' : tables) snap s :
  pass1_step args f SN st snap = Ok st' ->
  SN !! snap <> Some s ->
  st'.1 !! s = st.1 !! s.
Proof.
  intros Hstep Hne.
  apply pass1_step_inv in Hstep
    as (ids & _ & [[_ ->] | (_ & indices & sorted & s' & _ & _ & Hs' & _ & ->)]);
    [done |].
  simpl. rewrite lookup_insert_ne; [done |]. congruence.
Qed.

Lemma pass1_loop_table args f SN keys (st st' : tables) snap g ids indices s :
  pass1_loop args f SN keys st = Ok st' ->
  assoc snap f = Some g ->
  assoc (halo_id args) g = Some ids -> ids <> [] ->
  get_sort_indices f snap args = Ok indices ->
  SN !! snap = Some s ->
  (forall snap', snap' ∈ keys -> SN !! snap' = Some s -> snap' = snap) ->
  snap ∈ keys
  \/ st.1 !! s = Some (snapshot_table (index_mult_factor args) s ids indices) ->
  st'.1 !! s = Some (snapshot_table (index_mult_factor args) s ids indices).
Proof.
  intros Hloop Hg Hids Hne Hidx Hs. revert st Hloop.
  induction keys as [|key0 rest IH]; intros st; simpl.
  - intros [= <-] _ [Hin | Hst]; [by apply elem_of_nil in Hin | done].
  - destruct (pass1_step args f SN st key0) as [st1|] eqn:Hstep; simpl; [| done].
    intros Hrest Huniq Hcase.
    apply (IH st1 Hrest).
    { intros snap' Hin'. apply Huniq. by right. }
    destruct (decide (key0 = snap)) as [-> | Hneq].
    + right. by eapply pass1_step_table.
    + destruct Hcase as [Hin | Hst].
      * apply elem_of_cons in Hin as [-> | Hin]; [done | by left].
      * right. rewrite <- Hst. eapply pass1_step_other_table; [done |].
        intros Hs0. apply Hneq, Huniq; [left | done].
Qed.

Lemma pass1_table args f keys SN (tb : tables) snap g ids indices s :
  pass1 args f keys SN = Ok tb ->
  snap ∈ keys ->
  assoc snap f = Some g ->
  assoc (halo_id args) g = Some ids -> ids <> [] ->
  get_sort_indices f snap args = Ok indices ->
  SN !! snap = Some s ->
  (forall snap', snap' ∈ keys -> SN !! snap' = Some s -> snap' = snap) ->
  s <> 0 ->
  tb.1 !! s = Some (snapshot_table (index_mult_factor args) s ids indices).
Proof.
  unfold pass1.
  destruct (pass1_loop args f SN keys (∅, ∅)) as [st|] eqn:Hloop; simpl; [| done].
  intros [= <-] Hin Hg Hids Hne Hidx Hs Huniq Hs0. simpl.
  rewrite lookup_insert_ne by done.
  eapply pass1_loop_table; [done.. | by left].
Qed.

(** With pairwise distinct old IDs, the table sends the ID of the record
    placed at position [k] to [encode s k]. *)
Lemma snapshot_table_lookup M s ids indices k i v :
  indices ≡ₚ seq 0 (length ids) ->
  NoDup ids ->
  indices !! k = Some i -> ids !! i = Some v ->
  snapshot_table M s ids indices !! v = Some (encode M s (Z.of_nat k)).
Proof.
  intros Hperm Hnd Hk Hi. unfold snapshot_table.
  apply dict_zip_lookup with (i := k).
  - by rewrite !length_fmap, length_seq.
  - assert ((fun i => nth i ids 0) <$> indices ≡ₚ ids) as ->; [| done].
    by rewrite Hperm, fmap_nth_seq.
  - rewrite list_lookup_fmap, Hk. simpl. f_equal. by apply nth_lookup_Some.
  - rewrite list_lookup_fmap, lookup_seq_lt by (by eapply lookup_lt_Some).
    done.
Qed.

(** The table is one-to-one. *)
Lemma snapshot_table_inj M s ids indices v v' w :
  indices ≡ₚ seq 0 (length ids) ->
  NoDup ids ->
  snapshot_table M s ids indices !! v = Some w ->
  snapshot_table M s ids indices !! v' = Some w ->
  v = v'.
Proof.
  intros Hperm Hnd Hv Hv'.
  assert (forall u x, snapshot_table M s ids indices !! u = Some x ->
            exists k i, indices !! k = Some i /\ ids !! i = Some u
                        /\ x = encode M s (Z.of_nat k)) as Hsrc.
  { intros u x Hu.
    assert (u ∈ dom (snapshot_table M s ids indices)) as Hdom
      by (apply elem_of_dom; eauto).
    unfold snapshot_table in Hdom. rewrite dict_zip_dom in Hdom
      by (by rewrite !length_fmap, length_seq).
    apply elem_of_list_to_set, list_elem_of_fmap in Hdom as (i & -> & Hi).
    apply list_elem_of_lookup in Hi as [k Hk].
    assert (is_Some (ids !! i)) as [u Hu'].
    { apply lookup_lt_is_Some.
      assert (i ∈ indices) as Hin by (by eapply list_elem_of_lookup_2).
      rewrite Hperm in Hin. apply elem_of_seq in Hin. lia. }
    exists k, i. split; [done |].
    rewrite (nth_lookup_Some _ _ _ _ Hu'). split; [done |].
    rewrite (nth_lookup_Some _ _ _ _ Hu') in Hu.
    rewrite (snapshot_table_lookup _ _ _ _ _ _ _ Hperm Hnd Hk Hu') in Hu.
    congruence. }
  destruct (Hsrc _ _ Hv) as (k & i & Hk & Hi & ->).
  destruct (Hsrc _ _ Hv') as (k' & i' & Hk' & Hi' & Heq).
  unfold encode in Heq. assert (k' = k) as -> by lia.
  congruence.
Qed.

(** The table is onto the new IDs of the snapshot. *)
Lemma snapshot_table_onto M s ids indices k :
  indices ≡ₚ seq 0 (length ids) ->
  NoDup ids ->
  (k < length ids)%nat ->
  exists v, v ∈ ids /\
            snapshot_table M s ids indices !! v = Some (encode M s (Z.of_nat k)).
Proof.
  intros Hperm Hnd Hk.
  destruct (lookup_lt_is_Some_2 indices k) as [i Hi].
  { by rewrite Hperm, length_seq. }
  destruct (lookup_lt_is_Some_2 ids i) as [v Hv].
  { assert (i ∈ indices) as Hin by (by eapply list_elem_of_lookup_2).
    rewrite Hperm in Hin. apply elem_of_seq in Hin. lia. }
  exists v. split; [by eapply list_elem_of_lookup_2 |].
  by eapply snapshot_table_lookup.
Qed.

(** Whatever its number, 0 included, the table that the first loop stores
    for a snapshot with pairwise distinct IDs is one-to-one from the old
    IDs onto the new ones. *)
Lemma pass1_step_bijection args f SN (st st' : tables) snap g ids indices s :
  pass1_step args f SN st snap = Ok st' ->
  assoc snap f = Some g ->
  record_count g (length ids) ->
  assoc (halo_id args) g = Some ids -> ids <> [] ->
  NoDup ids ->
  get_sort_indices f snap args = Ok indices ->
  SN !! snap = Some s ->
  exists table : gmap Z Z,
    st'.1 !! s = Some table /\
    dom table = list_to_set ids /\
    (forall v v' w, table !! v = Some w -> table !! v' = Some w -> v = v') /\
    (forall k, (k < length ids)%nat ->
       exists v, v ∈ ids /\
                 table !! v = Some (encode (index_mult_factor args) s (Z.of_nat k))).
Proof.
  intros Hstep Hg Hcount Hids Hne Hnd Hidx Hs.
  pose proof (get_sort_indices_perm _ _ _ _ _ _ Hg Hcount Hidx) as Hperm.
  exists (snapshot_table (index_mult_factor args) s ids indices).
  split; [by eapply pass1_step_table |]. split; [| split].
  - unfold snapshot_table. rewrite dict_zip_dom
      by (by rewrite !length_fmap, length_seq).
    apply set_eq. intros x. rewrite !elem_of_list_to_set.
    by rewrite Hperm, fmap_nth_seq.
  - intros v v' w. by apply snapshot_table_inj.
  - intros k Hk. by apply snapshot_table_onto.
Qed.

(** ** Cross-references and unique IDs *)

(** References into a snapshot whose number is not 0 follow the record: if
    the referred record moves to position [k] of snapshot [s], the reference
    is written as [encode s k]. *)
Lemma cross_reference_rewritten gsn args f out
    key g ids field arr indices j k' v
    snap gs ids_s indices_s s i k :
  sort_and_write_file gsn args f = (out, Ok tt) ->
  (* the referring entry *)
  assoc key f = Some g ->
  assoc (halo_id args) g = Some ids -> ids <> [] ->
  assoc field g = Some arr ->
  field ∈ ID_fields args ->
  arr !! j = Some v ->
  get_sort_indices f key args = Ok indices ->
  indices !! k' = Some j ->
  (* the snapshot it refers to *)
  (decode (index_mult_factor args) v).1 = s -> s <> 0 ->
  snap ∈ (gsn f.*1).1 ->
  (gsn f.*1).2 !! snap = Some s ->
  (forall snap', snap' ∈ (gsn f.*1).1 -> (gsn f.*1).2 !! snap' = Some s ->
                 snap' = snap) ->
  assoc snap f = Some gs ->
  record_count gs (length ids_s) ->
  assoc (halo_id args) gs = Some ids_s ->
  NoDup ids_s ->
  (* the referred record *)
  ids_s !! i = Some v ->
  get_sort_indices f snap args = Ok indices_s ->
  indices_s !! k = Some i ->
  exists gout new,
    out !! key = Some gout /\ gout !! field = Some new /\
    new !! k' = Some (encode (index_mult_factor args) s (Z.of_nat k)).
Proof.
  intros Hrun Hg Hids Hne Harr Hfield Hj Hidx Hk' Hdec Hs0 Hsnap Hnum Huniq
         Hgs Hcount Hids_s Hnd Hi Hidx_s Hk.
  destruct (run_ok_output _ _ _ _ _ _ _ _ _ Hrun Hg Hids Hne Harr)
    as (tb & tw & indices' & sorted & Hp1 & Htw & Hidx' & Hfi & Hwr).
  assert (indices' = indices) as -> by congruence.
  pose proof (to_write_ID_field _ _ _ _ _ _ _ _ Hfield Hg Harr Htw) as Hall.
  destruct (Forall2_lookup_l _ _ _ _ _ Hall Hj) as (w & Hw & Hlook).
  assert (ids_s <> []) as Hne_s by (intros ->; done).
  pose proof (pass1_table _ _ _ _ _ _ _ _ _ _ Hp1 Hsnap Hgs Hids_s Hne_s
                Hidx_s Hnum Huniq Hs0) as Htable.
  pose proof (get_sort_indices_perm _ _ _ _ _ _ Hgs Hcount Hidx_s) as Hperm.
  assert (w = encode (index_mult_factor args) s (Z.of_nat k)) as ->.
  { unfold lookup_newID in Hlook. rewrite Hdec, Htable in Hlook. simpl in Hlook.
    rewrite (snapshot_table_lookup _ _ _ _ _ _ _ Hperm Hnd Hk Hi) in Hlook.
    simpl in Hlook. congruence. }
  eapply written_lookup; [done.. | | done | done].
  symmetry. by eapply Forall2_length.
Qed.

(** The unique-ID field of a snapshot whose number is not 0 leaves as
    [encode s 0], [encode s 1], ..., and the table behind it is one-to-one
    from the old IDs onto these. *)
Lemma unique_ids_rewritten gsn args f out snap g ids s :
  sort_and_write_file gsn args f = (out, Ok tt) ->
  snap ∈ (gsn f.*1).1 ->
  (gsn f.*1).2 !! snap = Some s ->
  (forall snap', snap' ∈ (gsn f.*1).1 -> (gsn f.*1).2 !! snap' = Some s ->
                 snap' = snap) ->
  s <> 0 ->
  assoc snap f = Some g ->
  record_count g (length ids) ->
  assoc (halo_id args) g = Some ids -> ids <> [] ->
  NoDup ids ->
  Forall (fun v => (decode (index_mult_factor args) v).1 = s) ids ->
  halo_id args ∈ ID_fields args ->
  exists (tb : tables) table gout,
    pass1 args f (gsn f.*1).1 (gsn f.*1).2 = Ok tb /\
    tb.1 !! s = Some table /\
    dom table = list_to_set ids /\
    (forall v v' w, table !! v = Some w -> table !! v' = Some w -> v = v') /\
    out !! snap = Some gout /\
    gout !! halo_id args
    = Some ((fun k : nat => encode (index_mult_factor args) s (Z.of_nat k))
              <$> seq 0 (length ids)).
Proof.
  intros Hrun Hsnap Hnum Huniq Hs0 Hg Hcount Hids Hne Hnd Hdec Hfield.
  destruct (run_ok_output _ _ _ _ _ _ _ _ _ Hrun Hg Hids Hne Hids)
    as (tb & tw & indices & sorted & Hp1 & Htw & Hidx & Hfi & Hwr).
  pose proof (to_write_ID_field _ _ _ _ _ _ _ _ Hfield Hg Hids Htw) as Hall.
  pose proof (pass1_table _ _ _ _ _ _ _ _ _ _ Hp1 Hsnap Hg Hids Hne
                Hidx Hnum Huniq Hs0) as Htable.
  pose proof (get_sort_indices_perm _ _ _ _ _ _ Hg Hcount Hidx) as Hperm.
  assert (length indices = length ids) as Hlen_idx
    by (by rewrite Hperm, length_seq).
  assert (length tw = length ids) as Hlen_tw
    by (symmetry; by eapply Forall2_length).
  assert (length sorted = length ids) as Hlen_sorted
    by (by rewrite (fancy_index_length _ _ _ Hfi)).
  exists tb, (snapshot_table (index_mult_factor args) s ids indices).
  destruct Hwr as (gout & new & Hgout & Hnew & Hb).
  exists gout. split; [done |]. split; [done |]. split; [| split; [| split; [done |]]].
  - unfold snapshot_table. rewrite dict_zip_dom
      by (by rewrite !length_fmap, length_seq).
    apply set_eq. intros x. rewrite !elem_of_list_to_set.
    by rewrite Hperm, fmap_nth_seq.
  - intros v v' w. by apply snapshot_table_inj.
  - rewrite Hnew. f_equal.
    unfold broadcast in Hb. rewrite Hlen_sorted, Nat.eqb_refl in Hb.
    injection Hb as <-.
    apply list_eq. intros k. rewrite list_lookup_fmap.
    destruct (decide (k < length ids)%nat) as [Hlt | Hge].
    + rewrite lookup_seq_lt by done. simpl.
      destruct (lookup_lt_is_Some_2 indices k) as [i Hk]; [lia |].
      destruct (fancy_index_lookup _ _ _ _ _ Hfi Hk) as (x & -> & Hx).
      destruct (Forall2_lookup_r _ _ _ _ _ Hall Hx) as (v & Hv & Hlook).
      unfold lookup_newID in Hlook.
      rewrite Forall_forall in Hdec.
      rewrite (Hdec v), Htable in Hlook
        by (by eapply list_elem_of_lookup_2).
      simpl in Hlook.
      rewrite (snapshot_table_lookup _ _ _ _ _ _ _ Hperm Hnd Hk Hv) in Hlook.
      simpl in Hlook. congruence.
    + rewrite lookup_seq_ge by lia. simpl.
      apply lookup_ge_None. lia.
Qed.

(** C1, at snapshot 0: the Tail of the halo of snapshot 1 is 1, which decodes
    to snapshot 0, local index 1; that record is placed first in snapshot 0,
    so that the link should be written as encode(0, 0) = 0.  The lookup
    raises KeyError instead, and the Tail array is left as copied. *)
Theorem cross_reference_into_snapshot_zero :
  let r := sort_and_write_file (snaps_of_table numbers_from_0) tail_args
             two_snapshots in
  h5get two_snapshots "Snap_001" "Tail" = Ok [1]
  /\ decode 10 1 = (0, 1)
  /\ get_sort_indices two_snapshots "Snap_000" tail_args = Ok [1; 0]%nat
  /\ encode 10 0 0 = 0
  /\ r.2 = Raise KeyError
  /\ (g ← r.1 !! "Snap_001"%string; g !! "Tail"%string) = Some [1].
Proof. repeat split; vm_compute; reflexivity. Qed.

(** C4, at snapshot 0: the first loop builds the one-to-one table
    {1: 0, 0: 1} for the two halos of snapshot 0, pass 1 ends with {-1: -1}
    in its place, and rewriting the ID field raises KeyError: the IDs stay
    in the order of the input next to the re-ordered ForestID. *)
Theorem unique_ids_of_snapshot_zero :
  let r := sort_and_write_file (snaps_of_table numbers_from_0) id_args
             snapshot_zero_file in
  (st ← pass1_loop id_args snapshot_zero_file (list_to_map numbers_from_0)
          ["Snap_000"%string] (∅, ∅);
   Ok (st.1 !! 0)) = Ok (Some {[ 1 := 0; 0 := 1 ]})
  /\ (tb ← pass1 id_args snapshot_zero_file ["Snap_000"%string]
             (list_to_map numbers_from_0);
      Ok (tb.1 !! 0)) = Ok (Some {[ -1 := -1 ]})
  /\ r.2 = Raise KeyError
  /\ r.1 !! "Snap_000"%string
     = Some (list_to_map [("ForestID"%string, [1; 2]); ("ID"%string, [0; 1])]).
Proof. repeat split; vm_compute; reflexivity. Qed.

(** The same two halos under snapshot number 1 are rewritten as wanted. *)
Example unique_ids_of_snapshot_one :
  let f := [("Snap_001"%string,
             [("ForestID"%string, [2; 1]); ("ID"%string, [10; 11])])] in
  let r := sort_and_write_file (snaps_of_table numbers_from_0) id_args f in
  r.2 = Ok tt
  /\ r.1 !! "Snap_001"%string
     = Some (list_to_map [("ForestID"%string, [1; 2]); ("ID"%string, [10; 11])]).
Proof. repeat split; vm_compute; reflexivity. Qed.

(** The Tail of the first halo of snapshot 2 refers to the first halo of
    snapshot 1, which moves to position 1: the link leaves as 11, at
    position 2, where its halo has moved. *)
Example cross_reference_rewritten_linked :
  exists gout new,
    (sort_and_write_file (snaps_of_table numbers_from_1) linked_args
       linked_file).1 !! "Snap_002"%string = Some gout
    /\ gout !! "Tail"%string = Some new
    /\ new !! 2%nat = Some (encode 10 1 1).
Proof.
  apply (cross_reference_rewritten (snaps_of_table numbers_from_1) linked_args
           linked_file _ "Snap_002"
           [("ForestID"%string, [2; 1; 1]); ("Head"%string, [-1; -1; -1]);
            ("ID"%string, [20; 21; 22]); ("Mass"%string, [8; 9; 3]);
            ("Tail"%string, [10; 11; -1])]
           [20; 21; 22] "Tail" [10; 11; -1] [2; 1; 0]%nat 0%nat 2%nat 10
           "Snap_001"
           [("ForestID"%string, [2; 1]); ("Head"%string, [20; 21]);
            ("ID"%string, [10; 11]); ("Mass"%string, [5; 6]);
            ("Tail"%string, [-1; -1])]
           [10; 11] [1; 0]%nat 1 0%nat 1%nat).
  - vm_compute. reflexivity.
  - reflexivity.
  - reflexivity.
  - discriminate.
  - reflexivity.
  - right. left.
  - reflexivity.
  - vm_compute. reflexivity.
  - reflexivity.
  - reflexivity.
  - lia.
  - vm_compute. left.
  - vm_compute. reflexivity.
  - intros snap' Hin Hnum.
    assert ((snaps_of_table numbers_from_1 linked_file.*1).1
            = ["Snap_001"; "Snap_002"]%string) as Hkeys by (vm_compute; reflexivity).
    rewrite Hkeys in Hin.
    apply elem_of_cons in Hin as [-> | Hin]; [done |].
    apply list_elem_of_singleton in Hin as ->.
    vm_compute in Hnum. discriminate.
  - reflexivity.
  - repeat constructor.
  - reflexivity.
  - apply (bool_decide_unpack _). reflexivity.
  - reflexivity.
  - vm_compute. reflexivity.
  - reflexivity.
Defined.

Example unique_ids_rewritten_linked :
  exists (tb : tables) table gout,
    pass1 linked_args linked_file
      (snaps_of_table numbers_from_1 linked_file.*1).1
      (snaps_of_table numbers_from_1 linked_file.*1).2 = Ok tb /\
    tb.1 !! 2 = Some table /\
    dom table = list_to_set [20; 21; 22] /\
    (forall v v' w, table !! v = Some w -> table !! v' = Some w -> v = v') /\
    (sort_and_write_file (snaps_of_table numbers_from_1) linked_args
       linked_file).1 !! "Snap_002"%string = Some gout /\
    gout !! "ID"%string = Some [20; 21; 22].
Proof.
  apply (unique_ids_rewritten (snaps_of_table numbers_from_1) linked_args
           linked_file _ "Snap_002"
           [("ForestID"%string, [2; 1; 1]); ("Head"%string, [-1; -1; -1]);
            ("ID"%string, [20; 21; 22]); ("Mass"%string, [8; 9; 3]);
            ("Tail"%string, [10; 11; -1])]
           [20; 21; 22] 2).
  - vm_compute. reflexivity.
  - vm_compute. right. left.
  - vm_compute. reflexivity.
  - intros snap' Hin Hnum.
    assert ((snaps_of_table numbers_from_1 linked_file.*1).1
            = ["Snap_001"; "Snap_002"]%string) as Hkeys by (vm_compute; reflexivity).
    rewrite Hkeys in Hin.
    apply elem_of_cons in Hin as [-> | Hin].
    + vm_compute in Hnum. discriminate.
    + by apply list_elem_of_singleton in Hin as ->.
  - lia.
  - reflexivity.
  - repeat constructor.
  - reflexivity.
  - discriminate.
  - apply (bool_decide_unpack _). reflexivity.
  - repeat constructor.
  - right. right. left.
Defined.

(** ** Fields that hold no identifiers *)

Lemma to_write_plain_field args f m key field g arr tw :
  field ∉ ID_fields args ->
  assoc key f = Some g -> assoc field g = Some arr ->
  to_write args f m key field = Ok tw -> tw = arr.
Proof.
  intros Hfield Hg Harr. unfold to_write.
  rewrite bool_decide_eq_false_2 by done.
  rewrite (h5get_intro _ _ _ _ _ Hg Harr). by intros [= <-].
Qed.

Lemma record_count_assoc g n field arr :
  record_count g n -> assoc field g = Some arr -> length arr = n.
Proof.
  intros Hn Harr%assoc_elem_of. unfold record_count in Hn.
  rewrite Forall_forall in Hn. apply (Hn _ Harr).
Qed.

Lemma written_same_length o key field n arr :
  written o key field n arr -> length arr = n ->
  exists gout, o !! key = Some gout /\ gout !! field = Some arr.
Proof.
  intros (gout & new & Hgout & Hnew & Hb) Hlen. exists gout. split; [done |].
  unfold broadcast in Hb. rewrite Hlen, Nat.eqb_refl in Hb. congruence.
Qed.

(** In a run that ends normally, an array that is not an identifier field
    is written with its values unchanged, each moved as the sort indices
    of its snapshot say. *)
Theorem plain_field_reordered gsn args f out key g ids field arr indices :
  sort_and_write_file gsn args f = (out, Ok tt) ->
  assoc key f = Some g ->
  record_count g (length ids) ->
  assoc (halo_id args) g = Some ids -> ids <> [] ->
  assoc field g = Some arr ->
  field ∉ ID_fields args ->
  get_sort_indices f key args = Ok indices ->
  exists gout new,
    out !! key = Some gout /\ gout !! field = Some new /\
    new ≡ₚ arr /\
    forall k j, indices !! k = Some j -> new !! k = arr !! j.
Proof.
  intros Hrun Hg Hcount Hids Hne Harr Hfield Hidx.
  destruct (run_ok_output _ _ _ _ _ _ _ _ _ Hrun Hg Hids Hne Harr)
    as (tb & tw & indices' & sorted & Hp1 & Htw & Hidx' & Hfi & Hwr).
  assert (indices' = indices) as -> by congruence.
  apply (to_write_plain_field _ _ _ _ _ _ _ _ Hfield Hg Harr) in Htw as ->.
  pose proof (get_sort_indices_perm _ _ _ _ _ _ Hg Hcount Hidx) as Hperm.
  pose proof (record_count_assoc _ _ _ _ Hcount Harr) as Hlen.
  rewrite <- Hlen in Hperm.
  destruct (written_same_length _ _ _ _ _ Hwr) as (gout & Hgout & Hnew).
  { rewrite (fancy_index_length _ _ _ Hfi), Hperm. apply length_seq. }
  exists gout, sorted. split; [done |]. split; [done |].
  split; [by eapply fancy_index_perm |].
  intros k j Hk.
  destruct (fancy_index_lookup _ _ _ _ _ Hfi Hk) as (x & -> & Hx). done.
Qed.

(** ** Groups without halos *)

Lemma sorted_field_skip args f tb key field g :
  assoc key f = Some g ->
  assoc (halo_id args) g = None \/ assoc (halo_id args) g = Some [] ->
  sorted_field args f tb key field = Ok None.
Proof.
  intros Hg Hcase. unfold sorted_field, h5get. rewrite Hg. simpl.
  by destruct Hcase as [-> | ->].
Qed.

Lemma write_fields_skip args f tb key fields o :
  (forall field, sorted_field args f tb key field = Ok None) ->
  write_fields args f tb key fields o = (o, Ok tt).
Proof.
  intros Hskip. induction fields as [|field rest IH]; simpl; [done |].
  unfold write_field. by rewrite Hskip.
Qed.

(** The state of a group at the end of a normal pass 2 is the one its last
    iteration left. *)
Lemma pass2_last_write args f tb keys key o o' :
  key ∈ keys ->
  pass2 args f tb keys o = (o', Ok tt) ->
  exists o1 o2,
    write_group args f tb key o1 = (o2, Ok tt) /\ o' !! key = o2 !! key.
Proof.
  intros Hin. revert o.
  induction keys as [|key0 rest IH]; intros o; simpl;
    [by apply elem_of_nil in Hin |].
  destruct (write_group args f tb key0 o) as [o1 [[]|e]] eqn:Hw; [| done].
  intros Hrest.
  destruct (decide (key ∈ rest)) as [Hin' | Hnotin]; [by eapply IH |].
  apply elem_of_cons in Hin as [-> | Hin]; [| done].
  exists o, o1. split; [done |]. by eapply pass2_other_keys.
Qed.

Lemma run_ok_pass2 gsn args f out :
  sort_and_write_file gsn args f = (out, Ok tt) ->
  exists tb : tables,
    pass1 args f (gsn f.*1).1 (gsn f.*1).2 = Ok tb /\
    pass2 args f tb f.*1 ∅ = (out, Ok tt).
Proof.
  unfold sort_and_write_file.
  destruct (gsn f.*1) as [Snap_Keys Snap_Nums]. simpl.
  destruct (pass1 args f Snap_Keys Snap_Nums) as [tb|]; [| done].
  intros Hp2. by exists tb.
Qed.

Lemma pass2_group_without_halos args f tb keys key g o out :
  key ∈ keys ->
  pass2 args f tb keys o = (out, Ok tt) ->
  assoc key f = Some g ->
  assoc (halo_id args) g = None \/ assoc (halo_id args) g = Some [] ->
  out !! key = Some (list_to_map g).
Proof.
  intros Hin Hp2 Hg Hcase.
  destruct (pass2_last_write _ _ _ _ _ _ _ Hin Hp2) as (o1 & o2 & Hw & ->).
  unfold write_group, copy_group in Hw. rewrite Hg in Hw. simpl in Hw.
  rewrite write_fields_skip in Hw by (intros; by eapply sorted_field_skip).
  injection Hw as <-. apply lookup_insert_eq.
Qed.

(** In a run that ends normally, a group that has no halo-ID array, or an
    empty one, is left in the output exactly as [copy_group] put it: none
    of its arrays is rewritten or re-ordered. *)
Theorem group_without_halos_copied gsn args f out key g :
  sort_and_write_file gsn args f = (out, Ok tt) ->
  assoc key f = Some g ->
  assoc (halo_id args) g = None \/ assoc (halo_id args) g = Some [] ->
  out !! key = Some (list_to_map g).
Proof.
  intros Hrun Hg Hcase.
  apply run_ok_pass2 in Hrun as (tb & _ & Hp2).
  eapply pass2_group_without_halos; [by eapply assoc_fst | done..].
Qed.

(** ** The layout of the output file *)

Lemma write_field_same_shape args f tb key field (o o' : h5out) r key' :
  write_field args f tb key field o = (o', r) ->
  dom <$> (o' !! key') = dom <$> (o !! key').
Proof.
  intros Hw. destruct r as [[]|e].
  - apply write_field_inv in Hw as [[_ ->] | (arr & _ & Hw)]; [done |].
    apply h5write_inv in Hw as (g & old & new & Hg & Hold & _ & ->).
    destruct (decide (key = key')) as [<- | Hne].
    + rewrite lookup_insert_eq, Hg. simpl. f_equal.
      rewrite dom_insert_L.
      assert (field ∈ dom g) by (apply elem_of_dom; eauto). set_solver.
    + by rewrite lookup_insert_ne.
  - by apply write_field_raise_unchanged in Hw as ->.
Qed.

Lemma write_fields_same_shape args f tb key fields (o o' : h5out) r key' :
  write_fields args f tb key fields o = (o', r) ->
  dom <$> (o' !! key') = dom <$> (o !! key').
Proof.
  revert o. induction fields as [|field rest IH]; intros o; simpl.
  - by intros [= <- _].
  - destruct (write_field args f tb key field o) as [o1 [[]|e]] eqn:Hw.
    + intros Hrest. rewrite (IH _ Hrest). by eapply write_field_same_shape.
    + intros [= <- _]. by eapply write_field_same_shape.
Qed.

Lemma write_fields_allocated args f tb key fields (o o' : h5out) r field n :
  write_fields args f tb key fields o = (o', r) ->
  allocated o key field n -> allocated o' key field n.
Proof.
  revert o. induction fields as [|field0 rest IH]; intros o; simpl.
  - by intros [= <- _].
  - destruct (write_field args f tb key field0 o) as [o1 [[]|e]] eqn:Hw.
    + intros Hrest Halloc. eapply IH; [done |]. by eapply write_field_allocated.
    + intros [= <- _] Halloc. by eapply write_field_allocated.
Qed.

Lemma write_group_dom args f tb key (o o' : h5out) :
  write_group args f tb key o = (o', Ok tt) -> dom o' = {[ key ]} ∪ dom o.
Proof.
  unfold write_group, copy_group.
  destruct (assoc key f) as [g|]; simpl; [| done].
  intros Hw. apply set_eq. intros key'.
  rewrite elem_of_union, elem_of_singleton, !elem_of_dom.
  rewrite <- !(fmap_is_Some dom).
  rewrite (write_fields_same_shape _ _ _ _ _ _ _ _ key' Hw).
  destruct (decide (key = key')) as [<- | Hne].
  - rewrite lookup_insert_eq. simpl. split; [by left | by eauto].
  - rewrite lookup_insert_ne by done. split; [by right | by intros [? | ?]].
Qed.

Lemma pass2_dom args f tb keys (o o' : h5out) :
  pass2 args f tb keys o = (o', Ok tt) -> dom o' = list_to_set keys ∪ dom o.
Proof.
  revert o. induction keys as [|key rest IH]; intros o; simpl.
  - intros [= <-]. set_solver.
  - destruct (write_group args f tb key o) as [o1 [[]|e]] eqn:Hw; [| done].
    intros Hrest. rewrite (IH _ Hrest), (write_group_dom _ _ _ _ _ _ Hw).
    set_solver.
Qed.

Lemma pass2_group_shape args f tb keys key g o out :
  key ∈ keys ->
  pass2 args f tb keys o = (out, Ok tt) ->
  assoc key f = Some g ->
  exists gout,
    out !! key = Some gout /\
    dom gout = list_to_set g.*1 /\
    forall field arr,
      assoc field g = Some arr ->
      exists new, gout !! field = Some new /\ length new = length arr.
Proof.
  intros Hin Hp2 Hg.
  destruct (pass2_last_write _ _ _ _ _ _ _ Hin Hp2) as (o1 & o2 & Hw & Hkey).
  unfold write_group, copy_group in Hw. rewrite Hg in Hw. simpl in Hw.
  pose proof (write_fields_same_shape _ _ _ _ _ _ _ _ key Hw) as Hshape.
  rewrite lookup_insert_eq in Hshape. simpl in Hshape.
  rewrite <- Hkey in Hshape.
  destruct (out !! key) as [gout|] eqn:Hgout; [| done].
  injection Hshape as Hdom.
  exists gout. split; [done |]. split.
  { rewrite Hdom. apply dom_list_to_map_L. }
  intros field arr Harr.
  assert (allocated o2 key field (length arr)) as (g2 & cur & Hg2 & Hcur & Hlen).
  { eapply write_fields_allocated; [exact Hw |].
    exists (list_to_map g), arr. rewrite lookup_insert_eq.
    split; [done |]. split; [| done]. by rewrite list_to_map_assoc. }
  exists cur. split; [| done].
  rewrite Hkey in Hgout. congruence.
Qed.

(** In a run that ends normally the output has the groups of the input, each
    with the arrays of the input group under the same names and with the
    same numbers of entries: nothing is added, dropped or resized. *)
Theorem output_layout gsn args f out :
  sort_and_write_file gsn args f = (out, Ok tt) ->
  dom out = list_to_set f.*1
  /\ forall key g,
       assoc key f = Some g ->
       exists gout,
         out !! key = Some gout /\
         dom gout = list_to_set g.*1 /\
         forall field arr,
           assoc field g = Some arr ->
           exists new, gout !! field = Some new /\ length new = length arr.
Proof.
  intros Hrun. apply run_ok_pass2 in Hrun as (tb & _ & Hp2). split.
  - rewrite (pass2_dom _ _ _ _ _ _ Hp2), dom_empty_L. set_solver.
  - intros key g Hg. eapply pass2_group_shape; [by eapply assoc_fst | done..].
Qed.

(** ** What pass 1 stores *)

Lemma pass1_loop_indices_dom args f SN keys (st st' : tables) key :
  pass1_loop args f SN keys st = Ok st' ->
  is_Some (st'.2 !! key) <->
  is_Some (st.2 !! key) \/
  (key ∈ keys /\ exists ids, h5get f key (halo_id args) = Ok ids /\ ids <> []).
Proof.
  revert st. induction keys as [|snap rest IH]; intros st; simpl.
  - intros [= <-]. split; [by left |]. intros [? | [Hin _]]; [done |].
    by apply elem_of_nil in Hin.
  - destruct (pass1_step args f SN st snap) as [st1|] eqn:Hstep; simpl; [| done].
    intros Hrest. rewrite (IH _ Hrest).
    apply pass1_step_inv in Hstep
      as (ids & Hids & [[-> ->] | (Hne & indices & sorted & s & _ & _ & _ & _ & ->)]).
    + split.
      * intros [? | (Hin & Hex)]; [by left |]. right. split; [by right | done].
      * intros [? | (Hin & ids' & Hids' & Hne')]; [by left |].
        apply elem_of_cons in Hin as [-> | Hin]; [congruence |].
        right. split; [done |]. by exists ids'.
    + simpl. split.
      * intros [Hsome | (Hin & Hex)].
        -- destruct (decide (snap = key)) as [-> | Hneq].
           ++ right. split; [left |]. by exists ids.
           ++ rewrite lookup_insert_ne in Hsome by done. by left.
        -- right. split; [by right | done].
      * intros [Hsome | (Hin & ids' & Hids' & Hne')].
        -- left. destruct (decide (snap = key)) as [-> | Hneq].
           ++ by rewrite lookup_insert_eq.
           ++ by rewrite lookup_insert_ne.
        -- apply elem_of_cons in Hin as [-> | Hin].
           ++ left. by rewrite lookup_insert_eq.
           ++ right. split; [done |]. by exists ids'.
Qed.

Lemma pass1_indices_dom args f keys SN (tb : tables) key :
  pass1 args f keys SN = Ok tb ->
  is_Some (tb.2 !! key) <->
  key ∈ keys /\ exists ids, h5get f key (halo_id args) = Ok ids /\ ids <> [].
Proof.
  unfold pass1.
  destruct (pass1_loop args f SN keys (∅, ∅)) as [st|] eqn:Hloop; simpl; [| done].
  intros [= <-]. simpl.
  rewrite (pass1_loop_indices_dom _ _ _ _ _ _ key Hloop). simpl.
  rewrite lookup_empty. split; [| by right].
  intros [[? [=]] | ?]. done.
Qed.

(** After pass 1, [snapshot_indices] has an entry for exactly the snapshot
    keys whose halo-ID array is not empty, and the entry is what
    [get_sort_indices] returns for that snapshot. *)
Theorem snapshot_indices_characterised args f keys SN (tb : tables) key idx :
  pass1 args f keys SN = Ok tb ->
  tb.2 !! key = Some idx <->
  key ∈ keys
  /\ (exists ids, h5get f key (halo_id args) = Ok ids /\ ids <> [])
  /\ get_sort_indices f key args = Ok idx.
Proof.
  intros Hp1. split.
  - intros Hidx.
    destruct (proj1 (pass1_indices_dom _ _ _ _ _ key Hp1)) as [Hin Hex]; [by eauto |].
    split; [done |]. split; [done |]. by eapply pass1_indices.
  - intros (Hin & Hex & Hidx).
    destruct (proj2 (pass1_indices_dom _ _ _ _ _ key Hp1)) as [idx' Hidx']; [done |].
    rewrite Hidx'. f_equal.
    apply (pass1_indices _ _ _ _ _ _ _ Hp1) in Hidx'. congruence.
Qed.

(** Every table of [ID_maps] other than the one under 0 was built from a
    non-empty snapshot with that number. *)
Lemma pass1_loop_provenance args f SN keys (st st' : tables) :
  pass1_loop args f SN keys st = Ok st' ->
  forall s (table : gmap Z Z),
    st'.1 !! s = Some table ->
    st.1 !! s = Some table \/
    exists snap ids indices sorted,
      snap ∈ keys /\ SN !! snap = Some s /\
      h5get f snap (halo_id args) = Ok ids /\ ids <> [] /\
      get_sort_indices f snap args = Ok indices /\
      fancy_index ids indices = Ok sorted /\
      table = dict_zip sorted
                ((fun k : nat => encode (index_mult_factor args) s (Z.of_nat k))
                   <$> seq 0 (length indices)).
Proof.
  revert st. induction keys as [|snap rest IH]; intros st; simpl.
  - intros [= <-] s table Hs. by left.
  - destruct (pass1_step args f SN st snap) as [st1|] eqn:Hstep; simpl; [| done].
    intros Hrest s table Hs.
    destruct (IH _ Hrest _ _ Hs)
      as [Hst1 | (snap' & ids & indices & sorted & Hin & Hrest')].
    + apply pass1_step_inv in Hstep
        as (ids & Hids & [[-> ->] | (Hne & indices & sorted & s0 & Hidx & Hfi & Hs0 & _ & ->)]);
        [by left |].
      simpl in Hst1. destruct (decide (s0 = s)) as [-> | Hneq].
      * rewrite lookup_insert_eq in Hst1. injection Hst1 as <-.
        right. exists snap, ids, indices, sorted. split; [left | done].
      * rewrite lookup_insert_ne in Hst1 by done. by left.
    + right. exists snap', ids, indices, sorted. split; [by right | done].
Qed.

Lemma pass1_provenance args f keys SN (tb : tables) s (table : gmap Z Z) :
  pass1 args f keys SN = Ok tb -> s <> 0 ->
  tb.1 !! s = Some table ->
  exists snap ids indices sorted,
    snap ∈ keys /\ SN !! snap = Some s /\
    h5get f snap (halo_id args) = Ok ids /\ ids <> [] /\
    get_sort_indices f snap args = Ok indices /\
    fancy_index ids indices = Ok sorted /\
    table = dict_zip sorted
              ((fun k : nat => encode (index_mult_factor args) s (Z.of_nat k))
                 <$> seq 0 (length indices)).
Proof.
  unfold pass1.
  destruct (pass1_loop args f SN keys (∅, ∅)) as [st|] eqn:Hloop; simpl; [| done].
  intros [= <-] Hs0. simpl. rewrite lookup_insert_ne by done. intros Hs.
  destruct (pass1_loop_provenance _ _ _ _ _ _ Hloop _ _ Hs) as [Hempty | ?]; [| done].
  simpl in Hempty. by rewrite lookup_empty in Hempty.
Qed.

(** ** Runs that cannot end normally *)

Lemma fancy_index_elem_of arr idx out x :
  fancy_index arr idx = Ok out -> x ∈ out -> x ∈ arr.
Proof.
  intros H%fancy_index_Forall2 Hx.
  apply list_elem_of_lookup in Hx as [k Hk].
  destruct (Forall2_lookup_r _ _ _ _ _ H Hk) as (i & _ & Hi).
  by eapply list_elem_of_lookup_2.
Qed.

Lemma dict_zip_key ks vs k :
  is_Some (dict_zip ks vs !! k) -> k ∈ ks.
Proof.
  unfold dict_zip.
  assert (forall (l : list (Z * Z)) (d : gmap Z Z),
            is_Some (fold_left (fun d kv => <[kv.1 := kv.2]> d) l d !! k) ->
            is_Some (d !! k) \/ k ∈ l.*1) as Hfold.
  { induction l as [|[k0 v0] l IH]; intros d; simpl; [by left |].
    intros [Hd | Hin]%IH; [| right; by right].
    destruct (decide (k0 = k)) as [-> | Hne].
    - right. left.
    - rewrite lookup_insert_ne in Hd by done. by left. }
  intros [Hempty | Hin]%Hfold.
  - rewrite lookup_empty in Hempty. by destruct Hempty.
  - apply list_elem_of_fmap in Hin as ([k' v'] & -> & Hin). simpl.
    by apply elem_of_zip_l in Hin.
Qed.

Lemma run_raises gsn args f (tb : tables) key g field ids e0 :
  pass1 args f (gsn f.*1).1 (gsn f.*1).2 = Ok tb ->
  assoc key f = Some g ->
  assoc (halo_id args) g = Some ids -> ids <> [] ->
  field ∈ g.*1 ->
  sorted_field args f tb key field = Raise e0 ->
  exists out e, sort_and_write_file gsn args f = (out, Raise e).
Proof.
  intros Hp1 Hg Hids Hne Hfield Hs. unfold sort_and_write_file.
  destruct (gsn f.*1) as [Snap_Keys Snap_Nums]. simpl in Hp1. rewrite Hp1.
  apply pass2_raises with (key := key); [by eapply assoc_fst |].
  intros o. by eapply write_group_raises.
Qed.

Lemma run_pass1_raises gsn args f e :
  pass1 args f (gsn f.*1).1 (gsn f.*1).2 = Raise e ->
  sort_and_write_file gsn args f = (∅, Raise e).
Proof.
  intros Hp1. unfold sort_and_write_file.
  destruct (gsn f.*1) as [Snap_Keys Snap_Nums]. simpl in Hp1. by rewrite Hp1.
Qed.

(** A reference that no snapshot can resolve makes the run raise: when an
    identifier field of a non-empty snapshot holds a value [v] that decodes
    to a snapshot number other than 0 under which no snapshot key carries
    [v] as a halo ID, no output value is made up for it. *)
Theorem dangling_reference_raises gsn args f key g ids field oldID v :
  assoc key f = Some g ->
  assoc (halo_id args) g = Some ids -> ids <> [] ->
  assoc field g = Some oldID ->
  field ∈ ID_fields args ->
  v ∈ oldID ->
  (decode (index_mult_factor args) v).1 <> 0 ->
  (forall snap ids_s,
     snap ∈ (gsn f.*1).1 ->
     (gsn f.*1).2 !! snap = Some (decode (index_mult_factor args) v).1 ->
     h5get f snap (halo_id args) = Ok ids_s ->
     v ∉ ids_s) ->
  exists out e, sort_and_write_file gsn args f = (out, Raise e).
Proof.
  intros Hg Hids Hne Hold Hfield Hv Hs0 Hnone.
  destruct (pass1 args f (gsn f.*1).1 (gsn f.*1).2) as [tb|e] eqn:Hp1;
    [| exists ∅, e; by apply run_pass1_raises].
  eapply run_raises; [done.. | by eapply assoc_fst |].
  eapply sorted_field_raises; [by eapply h5get_intro | done |].
  eapply to_write_fails; [done | by eapply h5get_intro | done |].
  unfold lookup_newID.
  destruct (tb.1 !! (decode (index_mult_factor args) v).1) as [table|] eqn:Htable;
    simpl; [| done].
  destruct (table !! v) as [w|] eqn:Hw; simpl; [| done].
  destruct (pass1_provenance _ _ _ _ _ _ _ Hp1 Hs0 Htable)
    as (snap & ids_s & indices & sorted & Hin & Hnum & Hids_s & _ & _ & Hfi & ->).
  destruct (Hnone snap ids_s Hin Hnum Hids_s).
  eapply fancy_index_elem_of; [done |].
  apply dict_zip_key with (vs := (fun k : nat => encode (index_mult_factor args)
                                      (decode (index_mult_factor args) v).1
                                      (Z.of_nat k)) <$> seq 0 (length indices)).
  by rewrite Hw.
Qed.

(** A group that carries halos but is not among the snapshot keys makes the
    run raise: pass 1 has stored no sort indices for it. *)
Theorem unlisted_group_raises gsn args f key g ids :
  assoc key f = Some g ->
  assoc (halo_id args) g = Some ids -> ids <> [] ->
  key ∉ (gsn f.*1).1 ->
  exists out e, sort_and_write_file gsn args f = (out, Raise e).
Proof.
  intros Hg Hids Hne Hnotin.
  destruct (pass1 args f (gsn f.*1).1 (gsn f.*1).2) as [tb|e] eqn:Hp1;
    [| exists ∅, e; by apply run_pass1_raises].
  assert (tb.2 !! key = None) as Hnone.
  { apply eq_None_not_Some. intros Hsome.
    apply (pass1_indices_dom _ _ _ _ _ key Hp1) in Hsome as [Hin _]. done. }
  assert (exists e0, sorted_field args f tb key (halo_id args) = Raise e0) as [e0 He0].
  { unfold sorted_field. rewrite (h5get_intro _ _ _ _ _ Hg Hids).
    destruct ids as [|x ids]; [done |]. cbn.
    destruct (to_write args f tb.1 key (halo_id args)) as [tw|e0]; cbn; [| by eexists].
    rewrite Hnone. cbn. by eexists. }
  eapply run_raises; [done.. | by eapply assoc_fst | done].
Qed.

Lemma pass1_loop_raises args f SN keys snap :
  snap ∈ keys ->
  (forall st, exists e, pass1_step args f SN st snap = Raise e) ->
  forall st, exists e, pass1_loop args f SN keys st = Raise e.
Proof.
  intros Hin Hraise.
  induction keys as [|snap0 rest IH]; intros st; [by apply elem_of_nil in Hin |].
  simpl.
  destruct (pass1_step args f SN st snap0) as [st1|e] eqn:Hstep; simpl;
    [| by exists e].
  apply elem_of_cons in Hin as [<- | Hin].
  - destruct (Hraise st) as [e He]. congruence.
  - by apply IH.
Qed.

(** A snapshot key that pass 1 cannot process stops the run before anything
    is written: when its group or halo-ID array is missing, or when it has
    halos and no snapshot number or no sort indices, the run raises and the
    output file is left empty. *)
Theorem unusable_snapshot_leaves_output_empty gsn args f snap :
  snap ∈ (gsn f.*1).1 ->
  (exists e0, h5get f snap (halo_id args) = Raise e0)
  \/ (exists ids,
        h5get f snap (halo_id args) = Ok ids /\ ids <> [] /\
        ((gsn f.*1).2 !! snap = None
         \/ exists e0, get_sort_indices f snap args = Raise e0)) ->
  exists e, sort_and_write_file gsn args f = (∅, Raise e).
Proof.
  intros Hin Hbad.
  assert (forall st, exists e,
            pass1_step args f (gsn f.*1).2 st snap = Raise e) as Hstep.
  { intros st. unfold pass1_step.
    destruct Hbad as [[e0 ->] | (ids & -> & Hne & Hcase)]; [by exists e0 |].
    destruct ids as [|x ids]; [done |]. cbn.
    destruct Hcase as [Hnum | [e0 ->]]; [| by exists e0].
    destruct (get_sort_indices f snap args) as [indices|e0]; cbn; [| by exists e0].
    destruct (fancy_index (x :: ids) indices) as [sorted|e0]; cbn; [| by exists e0].
    rewrite Hnum. cbn. by eexists. }
  destruct (pass1_loop_raises _ _ _ _ _ Hin Hstep (∅, ∅)) as [e He].
  exists e. apply run_pass1_raises. unfold pass1. by rewrite He.
Qed.

(** ** get_sort_indices: what it raises *)

Lemma h5get_error f key field e : h5get f key field = Raise e -> e = KeyError.
Proof.
  unfold h5get. destruct (assoc key f) as [g|]; simpl; [| congruence].
  destruct (assoc field g); simpl; congruence.
Qed.

Lemma lookup_fields_raises f snap names k e0 :
  k ∈ names -> h5get f snap k = Raise e0 ->
  lookup_fields f snap names = Raise KeyError.
Proof.
  intros Hin Hk. induction names as [|k0 names IH]; [by apply elem_of_nil in Hin |].
  simpl. destruct (h5get f snap k0) as [d|e] eqn:Hk0; simpl.
  - apply elem_of_cons in Hin as [-> | Hin]; [congruence |].
    by rewrite IH.
  - f_equal. by eapply h5get_error.
Qed.

(** When every sort field is absent or disabled by "NONE", nothing is left
    to sort on and [get_sort_indices] raises the TypeError of np.lexsort. *)
Theorem get_sort_indices_all_skipped f snap args :
  Forall (fun key => skip_key key = true) (sort_fields args) ->
  get_sort_indices f snap args = Raise TypeError.
Proof.
  intros Hall. unfold get_sort_indices.
  rewrite gather_sort_keys_active, active_keys_reverse.
  assert (active_keys (sort_fields args) = []) as ->; [| done].
  unfold active_keys. induction Hall as [|key keys Hkey _ IH]; simpl; [done |].
  by rewrite Hkey.
Qed.

(** A sort field that is not skipped and names no array of the snapshot
    makes [get_sort_indices] raise KeyError. *)
Theorem get_sort_indices_missing_field f snap args k e0 :
  Some k ∈ sort_fields args ->
  skip_key (Some k) = false ->
  h5get f snap k = Raise e0 ->
  get_sort_indices f snap args = Raise KeyError.
Proof.
  intros Hin Hskip Hk. unfold get_sort_indices.
  rewrite gather_sort_keys_active.
  rewrite (lookup_fields_raises _ _ _ k e0); [done | | done].
  unfold active_keys. apply list_elem_of_omap. exists (Some k).
  split; [by apply elem_of_reverse |]. by rewrite Hskip.
Qed.

(** ** The order of the sort indices *)

Lemma precedes_antisym keys i j : precedes keys i j -> precedes keys j i -> i = j.
Proof.
  induction keys as [|key rest IH]; simpl; [lia |].
  intros [? | [? ?]] [? | [? ?]]; try lia. by apply IH.
Qed.

Lemma insert_by_precedes key done i l :
  StronglySorted (precedes (key :: done)) l ->
  Forall (precedes done i) l ->
  StronglySorted (precedes (key :: done)) (insert_by key i l).
Proof.
  induction 1 as [|j l Hl IH Hj]; intros Hi; simpl.
  - repeat constructor.
  - apply Forall_cons in Hi as [Hij Hil].
    destruct (Z.leb_spec (key_at key i) (key_at key j)) as [Hle | Hgt].
    + constructor; [by constructor |].
      constructor.
      * simpl. destruct (decide (key_at key i = key_at key j)); [by right | left; lia].
      * rewrite Forall_forall in Hj, Hil |- *. intros x Hx.
        specialize (Hj x Hx). specialize (Hil x Hx). simpl in Hj |- *.
        destruct Hj as [? | [? _]]; [left; lia |].
        destruct (decide (key_at key i = key_at key x)); [by right | left; lia].
    + constructor; [by apply IH |].
      rewrite insert_by_perm. constructor; [| done].
      simpl. left. lia.
Qed.

Lemma argsort_stable_precedes key done idx :
  StronglySorted (precedes done) idx ->
  StronglySorted (precedes (key :: done)) (argsort_stable key idx).
Proof.
  induction 1 as [|i idx Hidx IH Hi]; simpl; [constructor |].
  apply insert_by_precedes; [done |].
  by rewrite argsort_stable_perm.
Qed.

Lemma lexsort_passes_precedes keys done idx :
  StronglySorted (precedes done) idx ->
  StronglySorted (precedes (reverse keys ++ done))
    (fold_left (fun idx key => argsort_stable key idx) keys idx).
Proof.
  revert done idx. induction keys as [|key keys IH]; intros done idx Hidx; simpl.
  - done.
  - rewrite reverse_cons, <- app_assoc. simpl.
    apply IH. by apply argsort_stable_precedes.
Qed.

Lemma seq_input_order n : StronglySorted (precedes []) (seq 0 n).
Proof.
  generalize 0%nat. induction n as [|n IH]; intros start; simpl; constructor.
  - apply IH.
  - apply Forall_forall. intros x Hx%elem_of_seq. simpl. lia.
Qed.

Lemma lexsort_precedes keys idx :
  lexsort keys = Ok idx -> StronglySorted (precedes (reverse keys)) idx.
Proof.
  unfold lexsort. destruct keys as [|k0 rest]; [done |].
  destruct (same_shape _ _); [| done]. intros [= <-].
  pose proof (lexsort_passes_precedes (k0 :: rest) [] _ (seq_input_order (length k0))) as H.
  by rewrite app_nil_r in H.
Qed.

Lemma lookup_fields_Forall2 f snap names ds :
  lookup_fields f snap names = Ok ds
  <-> Forall2 (fun n d => h5get f snap n = Ok d) names ds.
Proof.
  revert ds. induction names as [|n names IH]; intros ds; simpl.
  - split; [intros [= <-]; constructor | by intros ->%Forall2_nil_inv_l].
  - destruct (h5get f snap n) as [d|] eqn:Hd; simpl.
    + destruct (lookup_fields f snap names) as [ds'|]; simpl.
      * split.
        -- intros [= <-]. constructor; [done | by apply IH].
        -- intros (y & ys & Hy & Hys & ->)%Forall2_cons_inv_l.
           apply IH in Hys. congruence.
      * split; [done |].
        intros (y & ys & Hy & Hys & ->)%Forall2_cons_inv_l.
        by apply IH in Hys.
    + split; [done |].
      intros (y & ys & Hy & Hys & ->)%Forall2_cons_inv_l. congruence.
Qed.

Lemma get_sort_indices_precedes f snap args idx keys :
  get_sort_indices f snap args = Ok idx ->
  lookup_fields f snap (active_keys (sort_fields args)) = Ok keys ->
  StronglySorted (precedes keys) idx.
Proof.
  unfold get_sort_indices.
  rewrite gather_sort_keys_active, active_keys_reverse.
  destruct (lookup_fields f snap (reverse _)) as [ds|] eqn:Hds; simpl; [| done].
  intros Hidx%lexsort_precedes Hkeys.
  apply lookup_fields_Forall2, Forall2_reverse, lookup_fields_Forall2 in Hkeys.
  assert (ds = reverse keys) as -> by congruence.
  by rewrite reverse_involutive in Hidx.
Qed.

Lemma StronglySorted_lookup {A} (R : relation A) (l : list A) a b x y :
  StronglySorted R l -> (a < b)%nat ->
  l !! a = Some x -> l !! b = Some y -> R x y.
Proof.
  intros Hsorted Hab Ha Hb.
  rewrite <- (take_drop b l) in Hsorted.
  apply StronglySorted_app in Hsorted as (Hcross & _ & _).
  apply Hcross.
  - apply list_elem_of_lookup. exists a. by rewrite lookup_take_lt.
  - apply list_elem_of_lookup. exists 0%nat. by rewrite lookup_drop, Nat.add_0_r.
Qed.

(** The indices returned by [get_sort_indices] list the records in
    lexicographic order of the sort fields that are not skipped, the first
    listed field being the outermost; records that agree on all of them
    keep the order of the input. *)
Theorem get_sort_indices_lexicographic f snap args idx keys :
  get_sort_indices f snap args = Ok idx ->
  lookup_fields f snap (active_keys (sort_fields args)) = Ok keys ->
  forall a b i j, (a < b)%nat -> idx !! a = Some i -> idx !! b = Some j ->
    precedes keys i j.
Proof.
  intros Hidx Hkeys a b i j Hab Ha Hb.
  eapply StronglySorted_lookup; [| done..].
  by eapply get_sort_indices_precedes.
Qed.

(** On a snapshot whose records are already in that order the sort indices
    are 0, 1, ..., count-1: nothing moves. *)
Theorem get_sort_indices_sorted_input f snap args g count idx keys :
  assoc snap f = Some g ->
  record_count g count ->
  get_sort_indices f snap args = Ok idx ->
  lookup_fields f snap (active_keys (sort_fields args)) = Ok keys ->
  StronglySorted (precedes keys) (seq 0 count) ->
  idx = seq 0 count.
Proof.
  intros Hg Hcount Hidx Hkeys Hsorted.
  apply (StronglySorted_unique_strong (precedes keys)); [| | done |].
  - intros i j _ _. apply precedes_antisym.
  - by eapply get_sort_indices_precedes.
  - by eapply get_sort_indices_perm.
Qed.

(** ** A file that is already in order *)

Lemma dict_zip_diag l k w : dict_zip l l !! k = Some w -> w = k.
Proof.
  unfold dict_zip.
  assert (forall (p : list (Z * Z)) (d : gmap Z Z),
            Forall (fun kv => kv.1 = kv.2) p ->
            (forall k w, d !! k = Some w -> w = k) ->
            forall k w,
              fold_left (fun d kv => <[kv.1 := kv.2]> d) p d !! k = Some w ->
              w = k) as Hfold.
  { induction p as [|[k0 v0] p IH]; intros d Hp Hd k' w'; simpl; [apply Hd |].
    apply Forall_cons in Hp as [Hkv Hp]. simpl in Hkv. subst v0.
    apply IH; [done |]. intros k1 w1.
    destruct (decide (k0 = k1)) as [-> | Hne].
    - rewrite lookup_insert_eq. congruence.
    - rewrite lookup_insert_ne by done. apply Hd. }
  apply Hfold.
  - induction l as [|x l IH]; simpl; constructor; done.
  - intros k' w'. by rewrite lookup_empty.
Qed.

Lemma fancy_index_seq arr out :
  fancy_index arr (seq 0 (length arr)) = Ok out -> out = arr.
Proof. intros ->%fancy_index_fmap. apply fmap_nth_seq. Qed.

Lemma Forall2_lookup_id (l k : list Z) :
  Forall2 (fun v w => w = v) l k -> k = l.
Proof. induction 1; simpl; congruence. Qed.

(** When the sort indices of every snapshot are 0, 1, ..., count-1 and its
    halo IDs are the ones that [index_to_temporalID] gives to these
    positions, a run that ends normally writes every group as it is in the
    input. *)
Theorem file_in_order_unchanged gsn args f out :
  0 < index_mult_factor args ->
  sort_and_write_file gsn args f = (out, Ok tt) ->
  (forall snap g ids,
     snap ∈ (gsn f.*1).1 ->
     assoc snap f = Some g ->
     assoc (halo_id args) g = Some ids -> ids <> [] ->
     record_count g (length ids) /\
     get_sort_indices f snap args = Ok (seq 0 (length ids)) /\
     exists s, (gsn f.*1).2 !! snap = Some s /\
               index_to_temporalID (length ids) s (index_mult_factor args) = Ok ids) ->
  forall key g, assoc key f = Some g -> out !! key = Some (list_to_map g).
Proof.
  intros HM Hrun Hwf key g Hg.
  pose proof Hrun as Hrun'.
  apply run_ok_pass2 in Hrun' as (tb & Hp1 & Hp2).
  pose proof (assoc_fst _ _ _ Hg) as Hkey.
  destruct (assoc (halo_id args) g) as [[|x0 ids0]|] eqn:Hids;
    [by eapply pass2_group_without_halos; eauto | |
     by eapply pass2_group_without_halos; eauto].
  set (ids := x0 :: ids0) in *.
  assert (ids <> []) as Hne by done.
  (* every table other than the one under 0 sends each old ID to itself *)
  assert (forall v w, lookup_newID tb.1 (decode (index_mult_factor args) v).1 v = Ok w ->
                      w = v) as Hid.
  { intros v w Hlook.
    destruct (decide (v = -1)) as [-> | Hv].
    { by eapply lookup_newID_sentinel. }
    unfold lookup_newID in Hlook.
    destruct (tb.1 !! (decode (index_mult_factor args) v).1) as [table|] eqn:Htable;
      simpl in Hlook; [| done].
    destruct (table !! v) as [w'|] eqn:Hw; simpl in Hlook; [| done].
    injection Hlook as ->.
    destruct (decide ((decode (index_mult_factor args) v).1 = 0)) as [H0 | H0].
    { rewrite H0, (pass1_zero_table _ _ _ _ _ Hp1) in Htable.
      injection Htable as <-. by rewrite lookup_singleton_ne in Hw. }
    destruct (pass1_provenance _ _ _ _ _ _ _ Hp1 H0 Htable)
      as (snap & ids_s & indices & sorted & Hin & Hnum & Hids_s & Hne_s & Hidx & Hfi & ->).
    apply h5get_inv in Hids_s as (gs & Hgs & Hids_s).
    destruct (Hwf snap gs ids_s Hin Hgs Hids_s Hne_s) as (_ & Hidx' & s & Hs & Hpos).
    assert (indices = seq 0 (length ids_s)) as -> by congruence.
    assert (s = (decode (index_mult_factor args) v).1) as -> by congruence.
    apply fancy_index_seq in Hfi as ->.
    apply index_to_temporalID_inv in Hpos as [Hpos _].
    rewrite length_seq, <- Hpos in Hw. by apply dict_zip_diag in Hw. }
  (* the snapshot is among the snapshot keys *)
  destruct (pass2_ok_sorted_field _ _ _ _ _ _ (halo_id args) _ _ _ Hkey Hg
              (assoc_fst _ _ _ Hids) Hids Hne Hp2) as [sorted0 Hs0].
  apply sorted_field_inv in Hs0 as (_ & indices0 & _ & Hidx0 & _).
  assert (key ∈ (gsn f.*1).1) as Hsnap.
  { apply (pass1_indices_dom _ _ _ _ _ key Hp1). by eauto. }
  destruct (Hwf key g ids Hsnap Hg Hids Hne) as (Hcount & Hidx & _).
  destruct (pass2_group_shape _ _ _ _ _ _ _ _ Hkey Hp2 Hg) as (gout & Hgout & Hdom & _).
  rewrite Hgout. f_equal. apply map_eq. intros field.
  rewrite list_to_map_assoc.
  destruct (assoc field g) as [arr|] eqn:Harr.
  - destruct (run_ok_output _ _ _ _ _ _ _ _ _ Hrun Hg Hids Hne Harr)
      as (tb' & tw & indices & sorted & Hp1' & Htw & Hidx' & Hfi & Hwr).
    assert (tb' = tb) as -> by congruence.
    assert (indices = seq 0 (length ids)) as -> by congruence.
    pose proof (record_count_assoc _ _ _ _ Hcount Harr) as Hlen.
    assert (tw = arr) as ->.
    { destruct (decide (field ∈ ID_fields args)) as [Hfield | Hfield].
      - pose proof (to_write_ID_field _ _ _ _ _ _ _ _ Hfield Hg Harr Htw) as Hall.
        apply Forall2_lookup_id. eapply Forall2_impl; [exact Hall |].
        intros v w Hlook. by apply Hid.
      - by eapply to_write_plain_field. }
    rewrite <- Hlen in Hfi. apply fancy_index_seq in Hfi as ->.
    destruct (written_same_length _ _ _ _ _ Hwr eq_refl) as (gout' & Hgout' & Hnew).
    congruence.
  - apply not_elem_of_dom. rewrite Hdom.
    rewrite <- dom_list_to_map_L. apply not_elem_of_dom.
    by rewrite list_to_map_assoc.
Qed.

(** ** Runs that end normally *)

Lemma assoc_of_fst {V} name (l : list (string * V)) :
  name ∈ l.*1 -> is_Some (assoc name l).
Proof.
  induction l as [|[n v] l IH]; simpl; [by intros ?%elem_of_nil |].
  destruct (String.eqb_spec n name) as [-> | Hne]; [by eauto |].
  intros [-> | Hin]%elem_of_cons; [done | by apply IH].
Qed.

Lemma get_sort_indices_returns f snap args g count :
  assoc snap f = Some g ->
  record_count g count ->
  active_keys (sort_fields args) <> [] ->
  (forall k, k ∈ active_keys (sort_fields args) -> is_Some (assoc k g)) ->
  exists idx, get_sort_indices f snap args = Ok idx.
Proof.
  intros Hg Hn Hne Hall. unfold get_sort_indices.
  rewrite gather_sort_keys_active, active_keys_reverse.
  destruct (lookup_fields_returns f snap g (reverse (active_keys (sort_fields args))) Hg)
    as (ds & Hds & Hlen).
  { intros k Hk. apply Hall. by apply elem_of_reverse. }
  rewrite Hds. simpl.
  destruct ds as [|k0 rest].
  { rewrite length_reverse in Hlen. destruct (active_keys _); done. }
  apply lexsort_returns.
  eapply lookup_fields_length in Hds; [| done..].
  apply Forall_cons in Hds as [Hk0 Hrest].
  eapply Forall_impl; [exact Hrest |]. simpl. intros k ->. done.
Qed.

Lemma pass1_step_returns args f SN (st : tables) snap g ids :
  assoc snap f = Some g ->
  assoc (halo_id args) g = Some ids ->
  (ids <> [] -> sortable_snapshot args SN snap g ids) ->
  exists st', pass1_step args f SN st snap = Ok st'.
Proof.
  intros Hg Hids Hwf. unfold pass1_step.
  rewrite (h5get_intro _ _ _ _ _ Hg Hids). simpl.
  destruct ids as [|x ids]; [by eexists |]. cbn.
  destruct Hwf as (Hcount & [s Hs] & HM & Hne & Hkeys); [done |].
  destruct (get_sort_indices_returns _ _ _ _ _ Hg Hcount Hne Hkeys) as [indices Hidx].
  rewrite Hidx. cbn.
  pose proof (get_sort_indices_perm _ _ _ _ _ _ Hg Hcount Hidx) as Hperm.
  destruct (fancy_index_perm_returns _ _ Hperm) as [sorted ->]. cbn.
  rewrite Hs. cbn.
  rewrite index_to_temporalID_returns; [by eexists |].
  rewrite Hperm, length_seq. exact HM.
Qed.

Lemma pass1_loop_returns args f SN keys (st : tables) :
  (forall snap st0, snap ∈ keys -> exists st', pass1_step args f SN st0 snap = Ok st') ->
  exists st', pass1_loop args f SN keys st = Ok st'.
Proof.
  revert st. induction keys as [|snap rest IH]; intros st Hall; simpl; [by eexists |].
  destruct (Hall snap st) as [st1 ->]; [left |]. simpl.
  apply IH. intros snap' st0 Hin. apply Hall. by right.
Qed.

Lemma lookup_newIDs_returns m pairs :
  Forall (fun p => exists w, lookup_newID m p.1 p.2 = Ok w) pairs ->
  exists out, lookup_newIDs m pairs = Ok out /\ length out = length pairs.
Proof.
  induction 1 as [|[s v] pairs [w Hw] _ (out & IH & Hlen)]; simpl.
  - by exists [].
  - simpl in Hw. rewrite Hw. simpl. rewrite IH. simpl.
    exists (w :: out). split; [done |]. simpl. by rewrite Hlen.
Qed.

Lemma to_write_returns args f m key field g arr :
  assoc key f = Some g -> assoc field g = Some arr ->
  (field ∈ ID_fields args ->
   forall v, v ∈ arr ->
     exists w, lookup_newID m (decode (index_mult_factor args) v).1 v = Ok w) ->
  exists tw, to_write args f m key field = Ok tw /\ length tw = length arr.
Proof.
  intros Hg Harr Hres. unfold to_write.
  rewrite (h5get_intro _ _ _ _ _ Hg Harr).
  case_bool_decide as Hfield; simpl; [| by exists arr].
  destruct (lookup_newIDs_returns m
              (zip (temporalID_to_snapnum arr (index_mult_factor args)) arr))
    as (out & -> & Hlen).
  - unfold temporalID_to_snapnum. specialize (Hres Hfield).
    clear Harr. induction arr as [|v arr IH]; simpl; constructor.
    + simpl. apply Hres. left.
    + apply IH. intros v' Hv'. apply Hres. by right.
  - exists out. split; [done |]. rewrite Hlen.
    unfold temporalID_to_snapnum.
    rewrite length_zip_with, length_fmap. lia.
Qed.

Lemma write_field_returns args f tb key field g arr ids indices (o : h5out) :
  assoc key f = Some g -> assoc field g = Some arr ->
  assoc (halo_id args) g = Some ids ->
  (ids <> [] ->
     length arr = length ids /\
     tb.2 !! key = Some indices /\ indices ≡ₚ seq 0 (length ids) /\
     (field ∈ ID_fields args ->
      forall v, v ∈ arr ->
        exists w, lookup_newID tb.1 (decode (index_mult_factor args) v).1 v = Ok w)) ->
  allocated o key field (length arr) ->
  exists o', write_field args f tb key field o = (o', Ok tt).
Proof.
  intros Hg Harr Hids Hwf Halloc. unfold write_field, sorted_field.
  rewrite (h5get_intro _ _ _ _ _ Hg Hids).
  destruct ids as [|x ids]; [by eexists |]. cbn.
  destruct Hwf as (Hlen & Hidx & Hperm & Hres); [done |].
  destruct (to_write_returns _ _ tb.1 _ _ _ _ Hg Harr Hres) as (tw & -> & Hlen_tw).
  cbn. rewrite Hidx. cbn.
  destruct (fancy_index_perm_returns tw indices) as [sorted Hsorted].
  { by rewrite Hlen_tw, Hlen. }
  rewrite Hsorted. cbn.
  destruct Halloc as (gcur & cur & Hgcur & Hcur & Hlen_cur).
  unfold h5write. rewrite Hgcur. simpl. rewrite Hcur. simpl.
  unfold broadcast.
  assert (length sorted = length cur) as ->.
  { rewrite (fancy_index_length _ _ _ Hsorted), Hperm, length_seq. congruence. }
  rewrite Nat.eqb_refl. simpl. by eexists.
Qed.

Lemma write_fields_returns args f tb key g ids indices fields (o : h5out) :
  assoc key f = Some g ->
  assoc (halo_id args) g = Some ids ->
  (forall field, field ∈ fields -> is_Some (assoc field g)) ->
  (ids <> [] ->
     record_count g (length ids) /\
     tb.2 !! key = Some indices /\ indices ≡ₚ seq 0 (length ids) /\
     forall field arr v,
       assoc field g = Some arr -> field ∈ ID_fields args -> v ∈ arr ->
       exists w, lookup_newID tb.1 (decode (index_mult_factor args) v).1 v = Ok w) ->
  (forall field arr, assoc field g = Some arr -> allocated o key field (length arr)) ->
  exists o', write_fields args f tb key fields o = (o', Ok tt).
Proof.
  intros Hg Hids Hfields Hwf. revert o.
  induction fields as [|field rest IH]; intros o Halloc; simpl; [by eexists |].
  destruct (Hfields field) as [arr Harr]; [left |].
  destruct (write_field_returns args f tb key field g arr ids indices o Hg Harr Hids)
    as [o1 Hw]; [| by apply Halloc |].
  { intros Hne. destruct (Hwf Hne) as (Hcount & Hidx & Hperm & Hres).
    split; [by eapply record_count_assoc |]. split; [done |]. split; [done |].
    intros Hfield v Hv. by eapply Hres. }
  rewrite Hw. apply IH.
  - intros field' Hin. apply Hfields. by right.
  - intros field' arr' Harr'. eapply write_field_allocated; [exact Hw |].
    by apply Halloc.
Qed.

Lemma pass2_returns args f tb keys (o : h5out) :
  (forall key o0, key ∈ keys -> exists o', write_group args f tb key o0 = (o', Ok tt)) ->
  exists o', pass2 args f tb keys o = (o', Ok tt).
Proof.
  revert o. induction keys as [|key rest IH]; intros o Hall; simpl; [by eexists |].
  destruct (Hall key o) as [o1 ->]; [left |].
  apply IH. intros key' o0 Hin. apply Hall. by right.
Qed.

Lemma lookup_newID_intro (m : gmap Z (gmap Z Z)) s (table : gmap Z Z) v w :
  m !! s = Some table -> table !! v = Some w -> lookup_newID m s v = Ok w.
Proof. intros Hs Hv. unfold lookup_newID. rewrite Hs. simpl. by rewrite Hv. Qed.

Lemma well_formed_lookup args f keys SN (tb : tables) v key' g' ids' :
  pass1 args f keys SN = Ok tb ->
  (forall key g ids,
     assoc key f = Some g -> assoc (halo_id args) g = Some ids -> ids <> [] ->
     well_formed_snapshot args f keys SN key g ids) ->
  assoc key' f = Some g' -> assoc (halo_id args) g' = Some ids' ->
  v ∈ ids' ->
  SN !! key' = Some (decode (index_mult_factor args) v).1 ->
  exists w, lookup_newID tb.1 (decode (index_mult_factor args) v).1 v = Ok w.
Proof.
  intros Hp1 Hwf Hg' Hids' Hv Hnum.
  assert (ids' <> []) as Hne' by (intros ->; by apply elem_of_nil in Hv).
  destruct (Hwf _ _ _ Hg' Hids' Hne')
    as (Hin & (s & Hs & Hs0 & Huniq) & (Hcount & _ & _ & Hact & Hkeys) & _).
  assert (s = (decode (index_mult_factor args) v).1) as -> by congruence.
  destruct (get_sort_indices_returns _ _ _ _ _ Hg' Hcount Hact Hkeys) as [indices Hidx].
  pose proof (get_sort_indices_perm _ _ _ _ _ _ Hg' Hcount Hidx) as Hperm.
  assert (is_Some (snapshot_table (index_mult_factor args)
                     (decode (index_mult_factor args) v).1 ids' indices !! v))
    as [w Hw].
  { apply elem_of_dom. unfold snapshot_table.
    rewrite dict_zip_dom by (by rewrite !length_fmap, length_seq).
    apply elem_of_list_to_set. by rewrite Hperm, fmap_nth_seq. }
  exists w. eapply lookup_newID_intro; [| exact Hw].
  by eapply pass1_table.
Qed.

(** The run ends normally on a well-formed file: the multiplier is above 1,
    every snapshot key names a group with a halo-ID array, and every group
    with halos is a well-formed snapshot. *)
Theorem well_formed_run_ends_normally gsn args f :
  1 < index_mult_factor args ->
  (forall snap, snap ∈ (gsn f.*1).1 ->
     exists g ids, assoc snap f = Some g /\ assoc (halo_id args) g = Some ids) ->
  (forall key g ids,
     assoc key f = Some g -> assoc (halo_id args) g = Some ids -> ids <> [] ->
     well_formed_snapshot args f (gsn f.*1).1 (gsn f.*1).2 key g ids) ->
  exists out, sort_and_write_file gsn args f = (out, Ok tt).
Proof.
  intros HM Hsnaps Hwf. unfold sort_and_write_file.
  destruct (gsn f.*1) as [keys SN] eqn:Hgsn. simpl in Hsnaps, Hwf.
  destruct (pass1_loop_returns args f SN keys (∅, ∅)) as [st Hloop].
  { intros snap st0 Hin. destruct (Hsnaps snap Hin) as (g & ids & Hg & Hids).
    eapply pass1_step_returns; [done.. |].
    intros Hne. by destruct (Hwf _ _ _ Hg Hids Hne) as (_ & _ & ? & _). }
  assert (pass1 args f keys SN = Ok (<[0 := {[ -1 := -1 ]}]> st.1, st.2)) as Hp1.
  { unfold pass1. by rewrite Hloop. }
  rewrite Hp1. set (tb := (<[0 := {[ -1 := -1 ]}]> st.1, st.2)) in *.
  apply pass2_returns. intros key o0 Hkey.
  destruct (assoc_of_fst _ _ Hkey) as [g Hg].
  unfold write_group, copy_group. rewrite Hg. simpl.
  destruct (assoc (halo_id args) g) as [ids|] eqn:Hids.
  2:{ rewrite write_fields_skip; [by eexists |].
      intros field. eapply sorted_field_skip; [done | by left]. }
  destruct (decide (ids = [])) as [-> | Hne].
  { rewrite write_fields_skip; [by eexists |].
    intros field. eapply sorted_field_skip; [done | by right]. }
  destruct (Hwf _ _ _ Hg Hids Hne)
    as (Hin & _ & (Hcount & _ & _ & Hact & Hkeys) & Hrefs).
  destruct (get_sort_indices_returns _ _ _ _ _ Hg Hcount Hact Hkeys) as [indices Hidx].
  eapply (write_fields_returns args f tb key g ids indices); [done.. | | |].
  - intros field Hfield. by apply assoc_of_fst.
  - intros _. split; [done |]. split; [| split].
    + destruct (proj2 (pass1_indices_dom _ _ _ _ _ key Hp1)) as [idx' Hidx'].
      { split; [done |]. exists ids. split; [by eapply h5get_intro | done]. }
      rewrite Hidx'. f_equal.
      apply (pass1_indices _ _ _ _ _ _ _ Hp1) in Hidx'. congruence.
    + by eapply get_sort_indices_perm.
    + intros field arr v Harr Hfield Hv.
      destruct (Hrefs _ _ _ Harr Hfield Hv) as [-> | (key' & g' & ids' & Hg' & Hids' & Hv' & Hnum)].
      * exists (-1). rewrite decode_sentinel by done.
        eapply lookup_newID_intro; [by eapply pass1_zero_table |].
        apply lookup_singleton_eq.
      * by eapply well_formed_lookup.
  - intros field arr Harr. exists (list_to_map g), arr.
    rewrite lookup_insert_eq. split; [done |]. split; [| done].
    by rewrite list_to_map_assoc.
Qed.

(** ** parse_inputs *)

Lemma split_at_nonempty sep s : split_at sep s <> [].
Proof.
  destruct s as [|c s]; simpl; [done |].
  destruct (Ascii.eqb c sep); [done |]. by destruct (split_at sep s).
Qed.

Lemma append_empty_l (t : string) : EmptyString +:+ t = t.
Proof. reflexivity. Qed.

Lemma join_cons sep piece pieces :
  pieces <> [] -> join sep (piece :: pieces) = piece +:+ sep +:+ join sep pieces.
Proof. by destruct pieces. Qed.

Lemma join_split_at sep s : join (String sep EmptyString) (split_at sep s) = s.
Proof.
  induction s as [|c s IH]; simpl; [done |].
  destruct (Ascii.eqb_spec c sep) as [-> | Hne].
  - rewrite join_cons by apply split_at_nonempty. by rewrite IH.
  - pose proof (split_at_nonempty sep s) as Hnil.
    destruct (split_at sep s) as [|piece pieces]; [done |].
    destruct pieces as [|piece' pieces].
    + simpl in *. by rewrite IH.
    + rewrite join_cons in * by done. by rewrite append_cons, IH.
Qed.

Lemma split_at_free_of sep s : Forall (free_of sep) (split_at sep s).
Proof.
  induction s as [|c s IH]; simpl; [by repeat constructor |].
  destruct (Ascii.eqb_spec c sep) as [-> | Hne].
  - by constructor.
  - destruct (split_at sep s) as [|piece pieces]; [by repeat constructor |].
    apply Forall_cons in IH as [Hpiece Hpieces]. by constructor.
Qed.

Lemma split_at_free sep piece : free_of sep piece -> split_at sep piece = [piece].
Proof.
  induction piece as [|c piece IH]; simpl; [done |].
  intros [Hc Hpiece]. destruct (Ascii.eqb_spec c sep) as [-> | _]; [done |].
  by rewrite IH.
Qed.

Lemma split_at_app sep piece rest :
  free_of sep piece ->
  split_at sep (piece +:+ String sep rest) = piece :: split_at sep rest.
Proof.
  induction piece as [|c piece IH]; intros Hfree.
  - rewrite append_empty_l. simpl. by rewrite Ascii.eqb_refl.
  - destruct Hfree as [Hc Hpiece]. rewrite append_cons. simpl.
    destruct (Ascii.eqb_spec c sep) as [-> | _]; [done |].
    by rewrite IH.
Qed.

(** The pieces found by splitting a joined list are the list itself. *)
Lemma split_at_join sep pieces :
  pieces <> [] -> Forall (free_of sep) pieces ->
  split_at sep (join (String sep EmptyString) pieces) = pieces.
Proof.
  intros Hne Hfree. induction Hfree as [|piece pieces Hpiece _ IH]; [done |].
  destruct pieces as [|piece' pieces].
  - by apply split_at_free.
  - rewrite join_cons by done. rewrite append_cons, append_empty_l.
    rewrite split_at_app by done. by rewrite IH.
Qed.

(** [parse_inputs] returns exactly when both file names are given.  The
    field lists it returns then hold the names in the order of the option
    texts (or of the defaults): joined by commas they give the text back,
    and no name holds a comma. *)
Theorem parse_inputs_fields (cl : ParseInputs.command_line) :
  (ParseInputs.parse_inputs cl = None <->
   ParseInputs.given_fname_in cl = None \/ ParseInputs.given_fname_out cl = None)
  /\ forall p,
       ParseInputs.parse_inputs cl = Some p ->
       join "," (ParseInputs.sort_fields p)
       = default "ForestID,hostHaloID,Mass_200mean"%string
                 (ParseInputs.given_sort_fields cl)
       /\ join "," (ParseInputs.ID_fields p)
          = default "Head,Tail,RootHead,RootTail,ID,hostHaloID"%string
                    (ParseInputs.given_ID_fields cl)
       /\ Forall (free_of ",") (ParseInputs.sort_fields p)
       /\ Forall (free_of ",") (ParseInputs.ID_fields p).
Proof.
  unfold ParseInputs.parse_inputs. split.
  - destruct (ParseInputs.given_fname_in cl), (ParseInputs.given_fname_out cl);
      split; try done; try (by left); try (by right).
    by intros [? | ?].
  - intros p.
    destruct (ParseInputs.given_fname_in cl), (ParseInputs.given_fname_out cl);
      try done.
    intros [= <-]. simpl.
    split; [apply join_split_at |]. split; [apply join_split_at |].
    split; apply split_at_free_of.
Qed.

(** ** From the command line to the sort *)

Lemma active_keys_Some names :
  active_keys (Some <$> names)
  = filter (fun k => skip_key (Some k) = false) names.
Proof.
  unfold active_keys. induction names as [|k names IH]; [done |].
  rewrite fmap_cons, filter_cons. cbn [omap list_omap].
  rewrite IH. destruct (skip_key (Some k)) eqn:Hk.
  - by rewrite decide_False by done.
  - by rewrite decide_True by done.
Qed.

(** The names given with -s, in the order given and without those that
    contain "NONE" in any letter case, are the sort keys from the outermost
    to the innermost: the indices list the records in their lexicographic
    order, ties in the order of the input. *)
Theorem command_line_sort_order cl p M f snap idx keys :
  ParseInputs.parse_inputs cl = Some p ->
  get_sort_indices f snap (to_Args p M) = Ok idx ->
  lookup_fields f snap
    (filter (fun k => skip_key (Some k) = false)
       (split_at "," (default "ForestID,hostHaloID,Mass_200mean"%string
                             (ParseInputs.given_sort_fields cl))))
  = Ok keys ->
  forall a b i j, (a < b)%nat -> idx !! a = Some i -> idx !! b = Some j ->
    precedes keys i j.
Proof.
  intros Hp Hidx Hkeys a b i j Hab Ha Hb.
  eapply StronglySorted_lookup; [| done..].
  eapply get_sort_indices_precedes; [exact Hidx |].
  simpl. rewrite active_keys_Some.
  unfold ParseInputs.parse_inputs in Hp.
  destruct (ParseInputs.given_fname_in cl), (ParseInputs.given_fname_out cl);
    try done.
  injection Hp as <-. exact Hkeys.
Qed.

(** ** The properties at work on concrete files *)

Lemma plain_field_reordered_witness :
  exists gout new,
    (sort_and_write_file (snaps_of_table numbers_from_1) linked_args
       linked_file).1 !! "Snap_002"%string = Some gout
    /\ gout !! "Mass"%string = Some new
    /\ new ≡ₚ [8; 9; 3]
    /\ forall k j, [2; 1; 0]%nat !! k = Some j -> new !! k = [8; 9; 3] !! j.
Proof.
  apply (plain_field_reordered (snaps_of_table numbers_from_1) linked_args
           linked_file _ "Snap_002"
           [("ForestID"%string, [2; 1; 1]); ("Head"%string, [-1; -1; -1]);
            ("ID"%string, [20; 21; 22]); ("Mass"%string, [8; 9; 3]);
            ("Tail"%string, [10; 11; -1])]
           [20; 21; 22] "Mass" [8; 9; 3] [2; 1; 0]%nat).
  - vm_compute. reflexivity.
  - reflexivity.
  - repeat constructor.
  - reflexivity.
  - discriminate.
  - reflexivity.
  - apply (bool_decide_unpack _). reflexivity.
  - vm_compute. reflexivity.
Defined.

Lemma group_without_halos_copied_witness :
  (sort_and_write_file (snaps_of_table numbers_from_1) linked_args
     linked_file).1 !! "Header"%string
  = Some (list_to_map [("BoxSize"%string, [500])]).
Proof.
  apply (group_without_halos_copied (snaps_of_table numbers_from_1) linked_args
           linked_file _ "Header" [("BoxSize"%string, [500])]).
  - vm_compute. reflexivity.
  - reflexivity.
  - left. reflexivity.
Defined.

Lemma output_layout_witness :
  dom (sort_and_write_file (snaps_of_table numbers_from_1) linked_args
         linked_file).1 = list_to_set linked_file.*1
  /\ forall key g,
       assoc key linked_file = Some g ->
       exists gout,
         (sort_and_write_file (snaps_of_table numbers_from_1) linked_args
            linked_file).1 !! key = Some gout /\
         dom gout = list_to_set g.*1 /\
         forall field arr,
           assoc field g = Some arr ->
           exists new, gout !! field = Some new /\ length new = length arr.
Proof.
  apply (output_layout (snaps_of_table numbers_from_1) linked_args linked_file).
  vm_compute. reflexivity.
Defined.

Lemma snapshot_indices_characterised_witness :
  exists tb : tables,
    pass1 linked_args linked_file ["Snap_001"; "Snap_002"]%string
      (list_to_map numbers_from_1) = Ok tb
    /\ (tb.2 !! "Snap_002"%string = Some [2; 1; 0]%nat <->
        "Snap_002"%string ∈ ["Snap_001"; "Snap_002"]%string
        /\ (exists ids, h5get linked_file "Snap_002" (halo_id linked_args) = Ok ids
                        /\ ids <> [])
        /\ get_sort_indices linked_file "Snap_002" linked_args
           = Ok [2; 1; 0]%nat).
Proof.
  destruct (pass1 linked_args linked_file ["Snap_001"; "Snap_002"]%string
              (list_to_map numbers_from_1)) as [tb|e] eqn:Hp1;
    [| vm_compute in Hp1; discriminate].
  exists tb. split; [reflexivity |].
  exact (snapshot_indices_characterised linked_args linked_file
           ["Snap_001"; "Snap_002"]%string (list_to_map numbers_from_1) tb
           "Snap_002" [2; 1; 0]%nat Hp1).
Defined.

Lemma dangling_reference_raises_witness :
  exists out e,
    sort_and_write_file (snaps_of_table numbers_from_1) dangling_args
      dangling_file = (out, Raise e).
Proof.
  apply (dangling_reference_raises (snaps_of_table numbers_from_1) dangling_args
           dangling_file "Snap_002"
           [("ForestID"%string, [4; 3]); ("Head"%string, [-1; 37]);
            ("ID"%string, [21; 22]); ("Mass"%string, [8; 9])]
           [21; 22] "Head" [-1; 37] 37).
  - reflexivity.
  - reflexivity.
  - discriminate.
  - reflexivity.
  - left.
  - right. left.
  - vm_compute. discriminate.
  - intros snap ids_s Hin Hnum.
    assert ((snaps_of_table numbers_from_1 dangling_file.*1).1
            = ["Snap_001"; "Snap_002"]%string) as Hkeys by (vm_compute; reflexivity).
    rewrite Hkeys in Hin.
    apply elem_of_cons in Hin as [-> | Hin]; [vm_compute in Hnum; discriminate |].
    apply list_elem_of_singleton in Hin as ->. vm_compute in Hnum. discriminate.
Defined.

Lemma unlisted_group_raises_witness :
  exists out e,
    sort_and_write_file (snaps_of_table [("Snap_001"%string, 1)]) linked_args
      linked_file = (out, Raise e).
Proof.
  apply (unlisted_group_raises (snaps_of_table [("Snap_001"%string, 1)])
           linked_args linked_file "Snap_002"
           [("ForestID"%string, [2; 1; 1]); ("Head"%string, [-1; -1; -1]);
            ("ID"%string, [20; 21; 22]); ("Mass"%string, [8; 9; 3]);
            ("Tail"%string, [10; 11; -1])]
           [20; 21; 22]).
  - reflexivity.
  - reflexivity.
  - discriminate.
  - assert ((snaps_of_table [("Snap_001"%string, 1)] linked_file.*1).1
            = ["Snap_001"]%string) as -> by (vm_compute; reflexivity).
    intros Hin. apply list_elem_of_singleton in Hin. discriminate.
Defined.

Lemma unusable_snapshot_leaves_output_empty_witness :
  exists e,
    sort_and_write_file (snaps_of_table numbers_from_0) mass_none_args
      mass_none_file = (∅, Raise e).
Proof.
  apply (unusable_snapshot_leaves_output_empty (snaps_of_table numbers_from_0)
           mass_none_args mass_none_file "Snap_000").
  - assert ((snaps_of_table numbers_from_0 mass_none_file.*1).1
            = ["Snap_000"]%string) as -> by (vm_compute; reflexivity).
    left.
  - left. exists KeyError. reflexivity.
Defined.

Lemma get_sort_indices_all_skipped_witness :
  get_sort_indices example_file "Snap_000"
    {| sort_fields := [Some "None"%string; None; Some "mass_none"%string];
       halo_id := "ID"; ID_fields := []; index_mult_factor := 10 |}
  = Raise TypeError.
Proof.
  apply get_sort_indices_all_skipped. repeat constructor.
Defined.

Lemma get_sort_indices_missing_field_witness :
  get_sort_indices example_file "Snap_000"
    {| sort_fields := [Some "ForestID"%string; Some "Mvir"%string];
       halo_id := "ID"; ID_fields := []; index_mult_factor := 10 |}
  = Raise KeyError.
Proof.
  apply (get_sort_indices_missing_field example_file "Snap_000" _ "Mvir" KeyError).
  - right. left.
  - reflexivity.
  - reflexivity.
Defined.

Lemma get_sort_indices_lexicographic_witness :
  precedes [[1; 4; 39; 1; 1; 4];
            [4000000000; 100000000000; 800000000; 7000000000; 300000000000;
             5000000]] 5 1.
Proof.
  apply (get_sort_indices_lexicographic example_file "Snap_000" example_args
           [0; 3; 4; 5; 1; 2]%nat _ ltac:(vm_compute; reflexivity)
           ltac:(reflexivity) 3%nat 4%nat 5%nat 1%nat).
  - lia.
  - reflexivity.
  - reflexivity.
Defined.

Lemma get_sort_indices_sorted_input_witness :
  get_sort_indices ordered_file "Snap_001" linked_args = Ok (seq 0 3).
Proof.
  destruct (get_sort_indices ordered_file "Snap_001" linked_args)
    as [idx|e] eqn:Hidx; [| vm_compute in Hidx; discriminate].
  f_equal.
  apply (get_sort_indices_sorted_input ordered_file "Snap_001" linked_args
           [("ForestID"%string, [1; 1; 2]); ("Head"%string, [-1; 10; 11]);
            ("ID"%string, [10; 11; 12]); ("Mass"%string, [3; 5; 1])]
           3 idx [[1; 1; 2]; [3; 5; 1]]).
  - reflexivity.
  - repeat constructor.
  - exact Hidx.
  - reflexivity.
  - repeat constructor; simpl; unfold key_at; simpl; lia.
Defined.

Lemma pass1_step_bijection_witness :
  exists (st' : tables) (table : gmap Z Z),
    pass1_step linked_args linked_file (list_to_map numbers_from_1) (∅, ∅)
      "Snap_002" = Ok st' /\
    st'.1 !! 2 = Some table /\
    dom table = list_to_set [20; 21; 22] /\
    (forall v v' w, table !! v = Some w -> table !! v' = Some w -> v = v') /\
    (forall k, (k < length [20; 21; 22])%nat ->
       exists v, v ∈ [20; 21; 22] /\
                 table !! v = Some (encode (index_mult_factor linked_args) 2
                                      (Z.of_nat k))).
Proof.
  destruct (pass1_step linked_args linked_file (list_to_map numbers_from_1)
              (∅, ∅) "Snap_002") as [st'|e] eqn:Hstep;
    [| vm_compute in Hstep; discriminate].
  exists st'.
  destruct (pass1_step_bijection linked_args linked_file
              (list_to_map numbers_from_1) (∅, ∅) st' "Snap_002"
              [("ForestID"%string, [2; 1; 1]); ("Head"%string, [-1; -1; -1]);
               ("ID"%string, [20; 21; 22]); ("Mass"%string, [8; 9; 3]);
               ("Tail"%string, [10; 11; -1])]
              [20; 21; 22] [2; 1; 0]%nat 2) as (table & Htable).
  - exact Hstep.
  - reflexivity.
  - repeat constructor.
  - reflexivity.
  - discriminate.
  - apply (bool_decide_unpack _). reflexivity.
  - vm_compute. reflexivity.
  - vm_compute. reflexivity.
  - exists table. split; [reflexivity | exact Htable].
Defined.

Lemma file_in_order_unchanged_witness :
  (sort_and_write_file (snaps_of_table numbers_from_1) linked_args
     ordered_file).1 !! "Snap_001"%string
  = Some (list_to_map
            [("ForestID"%string, [1; 1; 2]); ("Head"%string, [-1; 10; 11]);
             ("ID"%string, [10; 11; 12]); ("Mass"%string, [3; 5; 1])]).
Proof.
  apply (file_in_order_unchanged (snaps_of_table numbers_from_1) linked_args
           ordered_file).
  - simpl. lia.
  - vm_compute. reflexivity.
  - intros snap g ids Hin Hg Hids Hne.
    assert ((snaps_of_table numbers_from_1 ordered_file.*1).1
            = ["Snap_001"]%string) as Hkeys by (vm_compute; reflexivity).
    rewrite Hkeys in Hin. apply list_elem_of_singleton in Hin as ->.
    injection Hg as <-. injection Hids as <-.
    split; [repeat constructor |]. split; [vm_compute; reflexivity |].
    exists 1. split; vm_compute; reflexivity.
  - reflexivity.
Defined.

Lemma parse_inputs_fields_witness :
  join "," ["ForestID"; "none"; "Mass"]%string = "ForestID,none,Mass"%string
  /\ join "," ["Head"; "Tail"; "RootHead"; "RootTail"; "ID"; "hostHaloID"]%string
     = "Head,Tail,RootHead,RootTail,ID,hostHaloID"%string
  /\ Forall (free_of ",") ["ForestID"; "none"; "Mass"]%string
  /\ Forall (free_of ",")
       ["Head"; "Tail"; "RootHead"; "RootTail"; "ID"; "hostHaloID"]%string.
Proof.
  apply (proj2 (parse_inputs_fields
                  {| ParseInputs.given_fname_in := Some "in.hdf5"%string;
                     ParseInputs.given_fname_out := Some "out.hdf5"%string;
                     ParseInputs.given_sort_fields := Some "ForestID,none,Mass"%string;
                     ParseInputs.given_halo_id := None;
                     ParseInputs.given_ID_fields := None;
                     ParseInputs.given_index_mult_factor := Some "10"%string |})
          {| ParseInputs.fname_in := "in.hdf5";
             ParseInputs.fname_out := "out.hdf5";
             ParseInputs.sort_fields := ["ForestID"; "none"; "Mass"]%string;
             ParseInputs.halo_id := "ID";
             ParseInputs.ID_fields :=
               ["Head"; "Tail"; "RootHead"; "RootTail"; "ID"; "hostHaloID"]%string;
             ParseInputs.index_mult_factor := ParseInputs.Given "10" |}).
  reflexivity.
Defined.

Lemma command_line_sort_order_witness :
  precedes [[1; 4; 39; 1; 1; 4];
            [4000000000; 100000000000; 800000000; 7000000000; 300000000000;
             5000000]] 5 1.
Proof.
  apply (command_line_sort_order
           {| ParseInputs.given_fname_in := Some "in.hdf5"%string;
              ParseInputs.given_fname_out := Some "out.hdf5"%string;
              ParseInputs.given_sort_fields := Some "ForestID,none,Mass"%string;
              ParseInputs.given_halo_id := None;
              ParseInputs.given_ID_fields := None;
              ParseInputs.given_index_mult_factor := Some "10"%string |}
           {| ParseInputs.fname_in := "in.hdf5";
              ParseInputs.fname_out := "out.hdf5";
              ParseInputs.sort_fields := ["ForestID"; "none"; "Mass"]%string;
              ParseInputs.halo_id := "ID";
              ParseInputs.ID_fields :=
                ["Head"; "Tail"; "RootHead"; "RootTail"; "ID"; "hostHaloID"]%string;
              ParseInputs.index_mult_factor := ParseInputs.Given "10" |}
           10 example_file "Snap_000" [0; 3; 4; 5; 1; 2]%nat _
           ltac:(reflexivity) ltac:(vm_compute; reflexivity)
           ltac:(vm_compute; reflexivity) 3%nat 4%nat 5%nat 1%nat).
  - lia.
  - reflexivity.
  - reflexivity.
Defined.

(** Case analysis on the members of a list given in full. *)
Ltac list_cases H :=
  repeat (apply elem_of_cons in H as [-> | H]);
  try (by apply elem_of_nil in H).

Lemma well_formed_run_ends_normally_witness :
  exists out,
    sort_and_write_file (snaps_of_table numbers_from_1) linked_args linked_file
    = (out, Ok tt).
Proof.
  assert ((snaps_of_table numbers_from_1 linked_file.*1).1
          = ["Snap_001"; "Snap_002"]%string) as Hkeys by (vm_compute; reflexivity).
  assert ((snaps_of_table numbers_from_1 linked_file.*1).2 !! "Snap_001"%string
          = Some 1) as Hnum1 by (vm_compute; reflexivity).
  assert ((snaps_of_table numbers_from_1 linked_file.*1).2 !! "Snap_002"%string
          = Some 2) as Hnum2 by (vm_compute; reflexivity).
  apply (well_formed_run_ends_normally (snaps_of_table numbers_from_1)
           linked_args linked_file).
  - simpl. lia.
  - intros snap Hin. rewrite Hkeys in Hin. list_cases Hin.
    + by eexists _, _.
    + by eexists _, _.
  - intros key g ids Hg Hids Hne. unfold linked_file in Hg. cbn [assoc] in Hg.
    repeat match type of Hg with
           | context [String.eqb ?a key] =>
               destruct (String.eqb_spec a key) as [<- | ?]
           end; try discriminate; injection Hg as <-;
      simpl in Hids; try discriminate; injection Hids as <-.
    + (* Snap_001 *)
      split; [rewrite Hkeys; left |].
      split.
      { exists 1. split; [done |]. split; [done |].
        intros key' Hin Hnum. rewrite Hkeys in Hin. list_cases Hin; [done |].
        rewrite Hnum2 in Hnum. discriminate. }
      split.
      { split; [repeat constructor |]. split; [by rewrite Hnum1 |].
        split; [simpl; lia |]. split; [done |].
        intros k Hk. vm_compute in Hk. list_cases Hk; by eexists. }
      intros field oldID v Hfield Hin Hv. simpl in Hin. list_cases Hin;
        simpl in Hfield; injection Hfield as <-; list_cases Hv;
        try (by left);
        right;
        first [ by (exists "Snap_001"%string; eexists _, _;
                    split; [reflexivity |]; split; [reflexivity |];
                    split; [apply (bool_decide_unpack _); reflexivity | exact Hnum1])
              | by (exists "Snap_002"%string; eexists _, _;
                    split; [reflexivity |]; split; [reflexivity |];
                    split; [apply (bool_decide_unpack _); reflexivity | exact Hnum2]) ].
    + (* Snap_002 *)
      split; [rewrite Hkeys; right; left |].
      split.
      { exists 2. split; [done |]. split; [done |].
        intros key' Hin Hnum. rewrite Hkeys in Hin. list_cases Hin; [| done].
        rewrite Hnum1 in Hnum. discriminate. }
      split.
      { split; [repeat constructor |]. split; [by rewrite Hnum2 |].
        split; [simpl; lia |]. split; [done |].
        intros k Hk. vm_compute in Hk. list_cases Hk; by eexists. }
      intros field oldID v Hfield Hin Hv. simpl in Hin. list_cases Hin;
        simpl in Hfield; injection Hfield as <-; list_cases Hv;
        try (by left);
        right;
        first [ by (exists "Snap_001"%string; eexists _, _;
                    split; [reflexivity |]; split; [reflexivity |];
                    split; [apply (bool_decide_unpack _); reflexivity | exact Hnum1])
              | by (exists "Snap_002"%string; eexists _, _;
                    split; [reflexivity |]; split; [reflexivity |];
                    split; [apply (bool_decide_unpack _); reflexivity | exact Hnum2]) ].
Defined.

(** ** The remap is one-to-one *)

Lemma lookup_newID_inv (m : gmap Z (gmap Z Z)) s v w :
  lookup_newID m s v = Ok w ->
  exists table : gmap Z Z, m !! s = Some table /\ table !! v = Some w.
Proof.
  unfold lookup_newID. destruct (m !! s) as [table|]; simpl; [| done].
  destruct (table !! v) as [w'|] eqn:Hw; simpl; [| done].
  intros [= <-]. by exists table.
Qed.

(** When the halo IDs of every snapshot are pairwise distinct, the tables of
    pass 1, as the rewrite uses them, never send two different old IDs to
    the same new ID, whether they belong to one snapshot or to two (the
    table under 0 left aside). *)
Theorem remap_one_to_one args f keys SN (tb : tables) v v' w :
  0 < index_mult_factor args ->
  pass1 args f keys SN = Ok tb ->
  (forall snap g ids,
     snap ∈ keys -> assoc snap f = Some g ->
     assoc (halo_id args) g = Some ids -> ids <> [] ->
     record_count g (length ids) /\ NoDup ids) ->
  (decode (index_mult_factor args) v).1 <> 0 ->
  (decode (index_mult_factor args) v').1 <> 0 ->
  lookup_newID tb.1 (decode (index_mult_factor args) v).1 v = Ok w ->
  lookup_newID tb.1 (decode (index_mult_factor args) v').1 v' = Ok w ->
  v = v'.
Proof.
  intros HM Hp1 Hwf Hs Hs' Hv Hv'.
  apply lookup_newID_inv in Hv as (table & Htable & Hw).
  apply lookup_newID_inv in Hv' as (table' & Htable' & Hw').
  destruct (pass1_in_range _ _ _ _ _ _ Hp1 Hs _ _ _ Htable Hw) as (k & Hk & Hwk).
  destruct (pass1_in_range _ _ _ _ _ _ Hp1 Hs' _ _ _ Htable' Hw') as (k' & Hk' & Hwk').
  assert ((decode (index_mult_factor args) v).1
          = (decode (index_mult_factor args) v').1) as Heq.
  { unfold encode in Hwk, Hwk'. nia. }
  rewrite <- Heq in Htable'.
  assert (table' = table) as -> by congruence.
  destruct (pass1_provenance _ _ _ _ _ _ _ Hp1 Hs Htable)
    as (snap & ids & indices & sorted & Hin & _ & Hids & Hne & Hidx & Hfi & Heq_t).
  apply h5get_inv in Hids as (g & Hg & Hids).
  destruct (Hwf _ _ _ Hin Hg Hids Hne) as [Hcount Hnd].
  pose proof (get_sort_indices_perm _ _ _ _ _ _ Hg Hcount Hidx) as Hperm.
  rewrite (fancy_index_fmap _ _ _ Hfi) in Heq_t.
  change (table = snapshot_table (index_mult_factor args)
                    (decode (index_mult_factor args) v).1 ids indices) in Heq_t.
  subst table. by eapply snapshot_table_inj.
Qed.

Lemma remap_one_to_one_witness :
  exists tb : tables,
    pass1 linked_args linked_file ["Snap_001"; "Snap_002"]%string
      (list_to_map numbers_from_1) = Ok tb
    /\ (lookup_newID tb.1 (decode 10 20).1 20 = Ok 22 ->
        lookup_newID tb.1 (decode 10 20).1 20 = Ok 22 -> 20 = 20).
Proof.
  destruct (pass1 linked_args linked_file ["Snap_001"; "Snap_002"]%string
              (list_to_map numbers_from_1)) as [tb|e] eqn:Hp1;
    [| vm_compute in Hp1; discriminate].
  exists tb. split; [reflexivity |].
  apply (remap_one_to_one linked_args linked_file
           ["Snap_001"; "Snap_002"]%string (list_to_map numbers_from_1) tb
           20 20 22).
  - simpl. lia.
  - exact Hp1.
  - intros snap g ids Hin Hg Hids Hne.
    list_cases Hin; injection Hg as <-; injection Hids as <-;
      (split; [repeat constructor | apply (bool_decide_unpack _); reflexivity]).
  - vm_compute. discriminate.
  - vm_compute. discriminate.
Defined.
